(** * Colour-pattern scripts: prefix cycling and stride dyeing

    A shallow embedding of [Colour-Pattern-Generator.py]
    ([ensure_tilde_prefix], [add_prefixes_to_letters]) and of
    [EOM_DYEING.py] ([alternating], [triplealternate]), with the properties
    the specification states about them.

    A Python [str] is a sequence of Unicode code points: it is modelled as a
    list of code points ([N]).  A Python list of strings is a list of such
    lists.  Lengths and indices are [nat]. *)

From Stdlib Require Import NArith Ascii String.
From stdpp Require Import base numbers strings list.

Local Open Scope N_scope.
Local Open Scope nat_scope.

Abbreviation char := N (only parsing).
Abbreviation str := (list N) (only parsing).

(** A string literal of the development, as the code points of its
    characters (the literals used below are ASCII). *)
Definition py (s : string) : str := N_of_ascii <$> list_ascii_of_string s.

(** ** Characters *)

Definition tilde : char := 126%N.
Definition space : char := 32%N.
Definition underscore : char := 95%N.

Definition in_range (lo hi c : N) : bool := (lo <=? c)%N && (c <=? hi)%N.

Definition ascii_letter (c : char) : bool :=
  in_range 65 90 c || in_range 97 122 c.

Definition ascii_digit (c : char) : bool := in_range 48 57 c.

(** The class [[A-Za-z0-9_]] the specification names. *)
Definition ascii_word (c : char) : bool :=
  ascii_letter c || ascii_digit c || (c =? underscore)%N.

(** [str.isalnum] on the Latin-1 supplement (U+0080..U+00FF): the letters
    (feminine and masculine ordinal, micro sign, U+00C0..U+00FF without the
    multiplication and division signs) and the characters with a numeric
    value (superscripts one, two, three and the three vulgar fractions). *)
Definition latin1_alnum (c : char) : bool :=
  (c =? 0xAA)%N || (c =? 0xB5)%N || (c =? 0xBA)%N
  || in_range 0xC0 0xD6 c || in_range 0xD8 0xF6 c || in_range 0xF8 0xFF c
  || (c =? 0xB2)%N || (c =? 0xB3)%N || (c =? 0xB9)%N || in_range 0xBC 0xBE c.

(** ** Marker normalizer: [ensure_tilde_prefix] *)

(** [prefix.startswith('~')] *)
Definition startswith_tilde (prefix : str) : bool :=
  match prefix with
  | c :: _ => (c =? tilde)%N
  | [] => false
  end.

(** The loop of [ensure_tilde_prefix]: [tilde_prefixes] starts empty and each
    prefix appends one element to it. *)
Definition ensure_tilde_prefix (prefixes : list str) : list str :=
  fold_left
    (fun tilde_prefixes prefix =>
       if negb (startswith_tilde prefix)
       then tilde_prefixes ++ [[tilde] ++ prefix]
       else tilde_prefixes ++ [prefix])
    prefixes [].

(** The specification's normalization of one marker. *)
Definition normalize_marker (m : str) : str :=
  if startswith_tilde m then m else tilde :: m.

(** ** Word characters: the regular expression [\w]

    The pattern [r'\w'] is a [str] pattern compiled without flags, so it is
    matched in Unicode mode: a character matches when it is alphanumeric
    ([str.isalnum]) or the underscore.  The Unicode character database is not
    part of the repository; its alphanumeric property for the code points from
    U+0100 on is the parameter [unicode_alnum]. *)

Section WordClass.
Variable unicode_alnum : N -> bool.

Definition py_isalnum (c : char) : bool :=
  if (c <? 0x80)%N then ascii_letter c || ascii_digit c
  else if (c <? 0x100)%N then latin1_alnum c
  else unicode_alnum c.

Definition is_word (c : char) : bool :=
  py_isalnum c || (c =? underscore)%N.

(** [re.findall(r'\w', text)]: the matches, left to right, each one
    character long. *)
Definition re_findall_w (text : str) : list str :=
  (fun c => [c]) <$> List.filter is_word text.
End WordClass.

(** A table with no alphanumeric code point from U+0100 on.  The closed
    examples below only use characters below U+0100, for which [is_word]
    does not consult the table. *)
Definition latin1_only : N -> bool := fun _ => false.

(** ** Prefix cycling: [add_prefixes_to_letters] *)

(** [l * n] on Python lists: [n] copies of [l], concatenated. *)
Fixpoint list_mul {A : Type} (l : list A) (n : nat) : list A :=
  match n with
  | O => []
  | S n' => l ++ list_mul l n'
  end.

(** [next(prefix_iter)]: the list iterator is the list of the items it has
    still to yield; [None] is [StopIteration]. *)
Definition next_prefix (prefix_iter : list str) : option (str * list str) :=
  match prefix_iter with
  | p :: rest => Some (p, rest)
  | [] => None
  end.

(** What [re.sub] joins into its result, one piece per character of the
    text: a character outside every match is copied; a match is replaced by
    what [replacer] returns, and the piece records which branch of
    [replacer] returned it. *)
Inductive piece : Type :=
| Copied (c : char)
| Prefixed (p : str) (c : char)
| Unprefixed (c : char).

Definition piece_str (e : piece) : str :=
  match e with
  | Copied c => [c]
  | Prefixed p c => p ++ [c]
  | Unprefixed c => [c]
  end.

Definition piece_char (e : piece) : char :=
  match e with
  | Copied c | Prefixed _ c | Unprefixed c => c
  end.

(** The result of [re.sub]: the pieces joined. *)
Definition joined (es : list piece) : str := concat (piece_str <$> es).

(** What a piece puts in front of its character. *)
Definition inserted (e : piece) : str :=
  match e with
  | Prefixed p _ => p
  | _ => []
  end.

(** [replacer(match)], with the state of [prefix_iter] passed in and out;
    [c] is [match.group(0)]. *)
Definition replacer (c : char) (prefix_iter : list str) : piece * list str :=
  match next_prefix prefix_iter with
  | Some (p, rest) => (Prefixed p c, rest)
  | None => (Unprefixed c, prefix_iter)
  end.

Section PrefixCycler.
Variable unicode_alnum : N -> bool.

(** [re.sub(r'\w', replacer, text)] before the final join: the text is
    scanned left to right and [replacer] is called once per match. *)
Fixpoint re_sub_w (text : str) (prefix_iter : list str) : list piece :=
  match text with
  | [] => []
  | c :: rest =>
      if is_word unicode_alnum c
      then let '(e, prefix_iter') := replacer c prefix_iter in
           e :: re_sub_w rest prefix_iter'
      else Copied c :: re_sub_w rest prefix_iter
  end.

Definition total_letters (text : str) : nat :=
  length (re_findall_w unicode_alnum text).

Definition repetitions_needed (text : str) (prefixes : list str) : nat :=
  total_letters text / length (ensure_tilde_prefix prefixes) + 1.

Definition extended_prefixes (text : str) (prefixes : list str) : list str :=
  list_mul (ensure_tilde_prefix prefixes) (repetitions_needed text prefixes).

(** The pieces of the run past the guard. *)
Definition pieces (text : str) (prefixes : list str) : list piece :=
  re_sub_w text (extended_prefixes text prefixes).

(** [not text or not prefixes] *)
Definition guard (text : str) (prefixes : list str) : bool :=
  match text, prefixes with
  | [], _ | _, [] => true
  | _, _ => false
  end.

Definition add_prefixes_to_letters (text : str) (prefixes : list str) : str :=
  if guard text prefixes then text
  else joined (pieces text prefixes).

(** The markers a list of pieces drew from the iterator, in order. *)
Definition drawn (es : list piece) : list str :=
  omap (fun e => match e with Prefixed p _ => Some p | _ => None end) es.

(** The markers one call consumes: none when it returns at the guard. *)
Definition markers_consumed (text : str) (prefixes : list str) : list str :=
  if guard text prefixes then [] else drawn (pieces text prefixes).

(** Removing the inserted markers from an output.  [marker_here tok out]:
    the token [tok] stands at the head of [out], in front of a word
    character.  [strip_markers toks skip out] scans [out] with the inserted
    tokens [toks] still to remove, dropping [skip] characters first; where
    the next token stands in front of a word character, it is dropped. *)
Fixpoint marker_here (tok out : str) : bool :=
  match tok, out with
  | [], c :: _ => is_word unicode_alnum c
  | t :: tok', c :: out' => (t =? c)%N && marker_here tok' out'
  | _, [] => false
  end.

Fixpoint strip_markers (toks : list str) (skip : nat) (out : str) : str :=
  match out with
  | [] => []
  | c :: out' =>
      let '(toks1, skip1) :=
        match skip, toks with
        | O, tok :: toks' =>
            if marker_here tok out then (toks', length tok) else (toks, O)
        | _, _ => (toks, skip)
        end in
      match skip1 with
      | S k => strip_markers toks1 k out'
      | O => c :: strip_markers toks1 O out'
      end
  end.
End PrefixCycler.

(** ** Stride dyeing: [alternating] and [triplealternate] *)

Module Dyeing.

(** [textf[start::step]]: the elements at indices [start], [start + step],
    ...; [wait] counts the elements still to skip before the next one
    taken. *)
Fixpoint slice_step {A : Type} (wait step : nat) (l : list A) : list A :=
  match l with
  | [] => []
  | x :: l' =>
      match wait with
      | O => x :: slice_step (step - 1) step l'
      | S w => slice_step w step l'
      end
  end.

(** One colouring loop: a space is appended as it is, any other character
    with the colour code in front. *)
Definition colour_group (c : str) (p : list char) : list str :=
  fold_left
    (fun pc i => if (i =? space)%N then pc ++ [[i]] else pc ++ [c ++ [i]])
    p [].

(** [itertools.zip_longest], missing values filled with [None]. *)
Definition zip_longest2 {A : Type} (a b : list A)
  : list (option A * option A) :=
  (fun k => (a !! k, b !! k)) <$> seq 0 (length a `max` length b).

Definition zip_longest4 {A : Type} (a b c d : list A)
  : list (option A * option A * option A * option A) :=
  (fun k => (a !! k, b !! k, c !! k, d !! k))
    <$> seq 0 (((length a `max` length b) `max` length c) `max` length d).

(** [if f: form.append(f)]: [None] and the empty string are falsy. *)
Definition append_if_truthy (form : list str) (f : option str) : list str :=
  match f with
  | Some ((_ :: _) as s) => form ++ [s]
  | _ => form
  end.

(** The body of the loop over [zip_longest]: each value of the tuple is
    appended when it is truthy. *)
Definition step2 (form : list str) (fb : option str * option str) : list str :=
  let '(f, b) := fb in append_if_truthy (append_if_truthy form f) b.

Definition step4 (form : list str)
    (abcd : option str * option str * option str * option str) : list str :=
  let '(a, b, c, d) := abcd in
  append_if_truthy
    (append_if_truthy (append_if_truthy (append_if_truthy form a) b) c) d.

Definition alternating (text c1 c2 : str) : str :=
  let textf := text in
  let p2 := slice_step 1 2 textf in
  let p1 := slice_step 0 2 textf in
  let p1c := colour_group c1 p1 in
  let p2c := colour_group c2 p2 in
  let form := fold_left step2 (zip_longest2 p1c p2c) [] in
  concat form.

Definition triplealternate (text c1 c2 c3 : str) : str :=
  let textf := text in
  let p4 := slice_step 3 4 textf in
  let p3 := slice_step 2 4 textf in
  let p2 := slice_step 1 4 textf in
  let p1 := slice_step 0 4 textf in
  let p1c := colour_group c1 p1 in
  let p2c := colour_group c2 p2 in
  let p3c := colour_group c3 p3 in
  let p4c := colour_group c2 p4 in
  let form := fold_left step4 (zip_longest4 p1c p2c p3c p4c) [] in
  concat form.

(** What a colouring loop appends for one character. *)
Definition coloured (c : str) (i : char) : str :=
  if (i =? space)%N then [i] else c ++ [i].

(** The position-indexed reading of both functions: the character at index
    [i] is emitted bare when it is a space and with [colour i] in front
    otherwise. *)
Definition dye (colour : nat -> str) (text : str) : str :=
  concat (imap (fun i ch => coloured (colour i) ch) text).

(** The reading in which every character, spaces included, carries its
    colour. *)
Definition dye_all (colour : nat -> str) (text : str) : str :=
  concat (imap (fun i ch => colour i ++ [ch]) text).

Definition two_cycle (c1 c2 : str) (i : nat) : str :=
  if Nat.even i then c1 else c2.

Definition four_cycle (c1 c2 c3 : str) (i : nat) : str :=
  match i mod 4 with
  | 0 => c1
  | 1 => c2
  | 2 => c3
  | _ => c2
  end.

End Dyeing.

(** ** Modulo cycling *)

(** The marker at position [k mod len] of a marker list, and the text with
    the [k]-th word character (counting from [k]) prefixed by it. *)
Definition marker_at (markers : list str) (k : nat) : str :=
  default [] (markers !! (k mod length markers)).

Fixpoint cycle_from (unicode_alnum : N -> bool) (markers : list str)
    (k : nat) (text : str) : str :=
  match text with
  | [] => []
  | c :: rest =>
      if is_word unicode_alnum c
      then marker_at markers k ++ c :: cycle_from unicode_alnum markers (S k) rest
      else c :: cycle_from unicode_alnum markers k rest
  end.

(** ** The result box and the statistics of [display_copyable_output] *)

Definition is_empty (s : str) : bool :=
  match s with
  | [] => true
  | _ :: _ => false
  end.

(** [s.split(sep)] with a separator of one character: the pieces between the
    occurrences of [sep], empty pieces included; never the empty list. *)
Fixpoint split_on (sep : char) (s : str) : list str :=
  match s with
  | [] => [[]]
  | c :: s' =>
      if (c =? sep)%N then [] :: split_on sep s'
      else match split_on sep s' with
           | w :: ws => (c :: w) :: ws
           | [] => [[c]]
           end
  end.

Definition max_width : nat := 56.

(** One round of the loop [for word in words]; the state is the lines
    printed so far and [current_line]. *)
Definition wrap_step (st : list str * str) (word : str) : list str * str :=
  let '(printed, current_line) := st in
  if length (current_line ++ [space] ++ word) <=? max_width
  then if is_empty current_line
       then (printed, word)
       else (printed, current_line ++ [space] ++ word)
  else if is_empty current_line
       then (printed, word)
       else (printed ++ [current_line], word).

(** The contents of the rows of the box, top to bottom. *)
Definition box_lines (result : str) : list str :=
  if length result <=? max_width then [result]
  else
    let words := split_on space result in
    let '(printed, current_line) := fold_left wrap_step words ([], []) in
    if is_empty current_line then printed else printed ++ [current_line].

(** [f"{line:<{max_width}}"]: padded with spaces on the right up to
    [max_width] characters, never cut. *)
Definition ljust (line : str) (width : nat) : str :=
  line ++ replicate (width - length line) space.

Definition box_light_vertical : char := 0x2502%N.
Definition box_light_horizontal : char := 0x2500%N.

(** [f"│ {line:<{max_width}} │"] *)
Definition box_row (line : str) : str :=
  [box_light_vertical; space] ++ ljust line max_width
    ++ [space; box_light_vertical].

(** The box as printed: top border, rows, bottom border. *)
Definition result_box (result : str) : list str :=
  ([0x250C%N] ++ replicate 58 box_light_horizontal ++ [0x2510%N])
    :: (box_row <$> box_lines result)
    ++ [[0x2514%N] ++ replicate 58 box_light_horizontal ++ [0x2518%N]].

(** The words of some lines, in reading order: the pieces between spaces
    that are not empty. *)
Definition nonempty_words (lines : list str) : list str :=
  List.filter (fun w => negb (is_empty w)) (concat (split_on space <$> lines)).

(** The three numbers of the statistics block. *)
Record statistics : Type := {
  letter_count : nat;
  result_length : nat;
  codes_used : nat
}.

Definition display_statistics (unicode_alnum : N -> bool)
    (original_text result : str) (prefixes : list str) : statistics :=
  {| letter_count := length (re_findall_w unicode_alnum original_text);
     result_length := length result;
     codes_used := length (remove_dups (ensure_tilde_prefix prefixes)) |}.

(** The characters of a text other than the space: those the dyeing
    functions put a colour code in front of. *)
Definition inked (text : str) : list char :=
  List.filter (fun ch => negb (ch =? space)%N) text.

(** ** Reading the operator's input: [get_user_input] *)

(** The characters [str.strip()] removes: those for which [str.isspace]
    holds. *)
Definition py_isspace (c : char) : bool :=
  in_range 0x09 0x0D c || in_range 0x1C 0x20 c
  || (c =? 0x85)%N || (c =? 0xA0)%N || (c =? 0x1680)%N
  || in_range 0x2000 0x200A c || in_range 0x2028 0x2029 c
  || (c =? 0x202F)%N || (c =? 0x205F)%N || (c =? 0x3000)%N.

Fixpoint lstrip (s : str) : str :=
  match s with
  | [] => []
  | c :: s' => if py_isspace c then lstrip s' else s
  end.

Definition rstrip (s : str) : str := reverse (lstrip (reverse s)).

Definition strip (s : str) : str := rstrip (lstrip s).

Definition comma : char := 44%N.

(** [[p.strip() for p in prefix_input.split(',') if p.strip()]] *)
Definition parse_prefixes (prefix_input : str) : list str :=
  strip <$> List.filter (fun p => negb (is_empty (strip p)))
                        (split_on comma prefix_input).

(** [",".join(prefixes)] *)
Fixpoint join_commas (prefixes : list str) : str :=
  match prefixes with
  | [] => []
  | [p] => p
  | p :: rest => p ++ comma :: join_commas rest
  end.

(** The error line printed before [return None, None]. *)
Inductive rejection : Type :=
| NoText
| NoColourCode
| NoValidColourCodes.

Inductive user_input : Type :=
| Rejected (r : rejection)
| Accepted (input_text : str) (prefixes : list str).

(** [get_user_input()] on the lines the operator types, one per call of
    [input]; the lines not read are returned with the result, and [None]
    is the [EOFError] of [input] when no line is left.  The banner and the
    prompts printed are not modelled. *)
Definition get_user_input (stdin : list str) : option (user_input * list str) :=
  match stdin with
  | [] => None
  | line :: stdin1 =>
      let input_text := strip line in
      if is_empty input_text then Some (Rejected NoText, stdin1)
      else
        match stdin1 with
        | [] => None
        | line2 :: stdin2 =>
            let prefix_input := strip line2 in
            if is_empty prefix_input then Some (Rejected NoColourCode, stdin2)
            else
              let prefixes := parse_prefixes prefix_input in
              match prefixes with
              | [] => Some (Rejected NoValidColourCodes, stdin2)
              | _ :: _ => Some (Accepted input_text prefixes, stdin2)
              end
        end
  end.

(** A colour code as [get_user_input] returns them: not empty, without a
    comma, without white space at either end. *)
Definition clean_code (p : str) : Prop :=
  p <> [] /\ (comma ∉ p) /\ strip p = p.

Example parse_prefixes_run :
  parse_prefixes (py " W1 ,, ~W2,  ,R 5 ") = [py "W1"; py "~W2"; py "R 5"].
Proof. reflexivity. Qed.

Example box_lines_run :
  box_lines (py "~Aa~Bb~Ac~Bd ~Ae~Bf~Ag~Bh ~Ai~Bj~Ak~Bl ~Am~Bn~Ao~Bp ~Aq~Br~As~Bt")
  = [py "~Aa~Bb~Ac~Bd ~Ae~Bf~Ag~Bh ~Ai~Bj~Ak~Bl ~Am~Bn~Ao~Bp";
     py "~Aq~Br~As~Bt"].
Proof. reflexivity. Qed.

Example get_user_input_run :
  get_user_input [py "  Hello World! "; py "W1, W2"; py "4"]
  = Some (Accepted (py "Hello World!") [py "W1"; py "W2"], [py "4"]).
Proof. reflexivity. Qed.

Example hello_world_run :
  add_prefixes_to_letters latin1_only (py "Hello World!") [py "W1"; py "W2"]
  = py "~W1H~W2e~W1l~W2l~W1o ~W2W~W1o~W2r~W1l~W2d!".
Proof. reflexivity. Qed.

Example hi_run :
  add_prefixes_to_letters latin1_only (py "Hi!") [py "A"; py "B"] = py "~AH~Bi!".
Proof. reflexivity. Qed.

Example single_marker_run :
  add_prefixes_to_letters latin1_only (py "A1_b") [py "X"] = py "~XA~X1~X_~Xb".
Proof. reflexivity. Qed.

Example normalize_run :
  ensure_tilde_prefix [py "~A"; py "B"] = [py "~A"; py "~B"].
Proof. reflexivity. Qed.

Example strip_run :
  strip_markers latin1_only [py "~-"] 0
    (add_prefixes_to_letters latin1_only (py "~-a") [py "-"])
  = py "~-a".
Proof. reflexivity. Qed.

Example alternating_run :
  Dyeing.alternating (py "ab c!") (py "~L7") (py "~G2")
  = py "~L7a~G2b ~G2c~L7!".
Proof. reflexivity. Qed.

Example triplealternate_run :
  Dyeing.triplealternate (py "abcdefg h") (py "~1") (py "~2") (py "~3")
  = py "~1a~2b~3c~2d~1e~2f~3g ~1h".
Proof. reflexivity. Qed.

(** ** Facts about the normalizer *)

Lemma startswith_tilde_head (m : str) :
  startswith_tilde m = true <-> head m = Some tilde.
Proof.
  destruct m as [|c m]; simpl.
  - split; discriminate.
  - rewrite N.eqb_eq. split; [intros ->; reflexivity | intros [= ->]; reflexivity].
Qed.

Lemma ensure_tilde_prefix_acc (acc prefixes : list str) :
  fold_left
    (fun tilde_prefixes prefix =>
       if negb (startswith_tilde prefix)
       then tilde_prefixes ++ [[tilde] ++ prefix]
       else tilde_prefixes ++ [prefix])
    prefixes acc
  = acc ++ (normalize_marker <$> prefixes).
Proof.
  revert acc. induction prefixes as [|p ps IH]; intros acc; simpl.
  - by rewrite app_nil_r.
  - rewrite IH. unfold normalize_marker.
    destruct (startswith_tilde p); simpl; by rewrite <- app_assoc.
Qed.

Lemma ensure_tilde_prefix_map (prefixes : list str) :
  ensure_tilde_prefix prefixes = normalize_marker <$> prefixes.
Proof. unfold ensure_tilde_prefix. by rewrite ensure_tilde_prefix_acc. Qed.

Lemma normalize_marker_tilde (m : str) :
  startswith_tilde (normalize_marker m) = true.
Proof.
  unfold normalize_marker. destruct (startswith_tilde m) eqn:E; [done|].
  reflexivity.
Qed.

Lemma normalize_marker_idem (m : str) :
  normalize_marker (normalize_marker m) = normalize_marker m.
Proof.
  unfold normalize_marker at 1. by rewrite normalize_marker_tilde.
Qed.

Lemma length_ensure_tilde_prefix (prefixes : list str) :
  length (ensure_tilde_prefix prefixes) = length prefixes.
Proof. rewrite ensure_tilde_prefix_map. apply length_fmap. Qed.

Lemma ensure_tilde_prefix_all_tilde (prefixes : list str) :
  Forall (fun p => startswith_tilde p = true) (ensure_tilde_prefix prefixes).
Proof.
  rewrite ensure_tilde_prefix_map. apply Forall_fmap, Forall_true.
  intros m. apply normalize_marker_tilde.
Qed.

(** C6. [ensure_tilde_prefix] prepends [~] to each marker that does not start
    with it and keeps each marker that does; the result has the length and the
    order of the input (position [i] of the result is the normalized marker
    of position [i], duplicates included), and the empty list gives the empty
    list. *)
Theorem ensure_tilde_prefix_spec (prefixes : list str) :
  length (ensure_tilde_prefix prefixes) = length prefixes
  /\ (forall i, ensure_tilde_prefix prefixes !! i
                = normalize_marker <$> prefixes !! i)
  /\ (forall m, (head m = Some tilde -> normalize_marker m = m)
                /\ (head m <> Some tilde -> normalize_marker m = tilde :: m))
  /\ ensure_tilde_prefix [] = [].
Proof.
  split; [apply length_ensure_tilde_prefix|].
  split; [intros i; rewrite ensure_tilde_prefix_map; apply list_lookup_fmap|].
  split; [|reflexivity].
  intros m. unfold normalize_marker.
  destruct (startswith_tilde m) eqn:E.
  - split; [done|]. intros H. by apply startswith_tilde_head in E.
  - split; [|done]. intros H. apply startswith_tilde_head in H. congruence.
Qed.

Lemma ensure_tilde_prefix_spec_witness :
  ensure_tilde_prefix [py "~A"; py "B"; py "B"; []]
  = [py "~A"; py "~B"; py "~B"; py "~"]
  /\ normalize_marker (py "~A") = py "~A"
  /\ normalize_marker (py "B") = py "~B".
Proof.
  destruct (ensure_tilde_prefix_spec [py "~A"; py "B"; py "B"; []])
    as (_ & _ & Hm & _).
  split; [reflexivity|].
  split.
  - apply (proj1 (Hm (py "~A"))). reflexivity.
  - apply (proj2 (Hm (py "B"))). discriminate.
Defined.

(** C7. Normalization is idempotent. *)
Theorem ensure_tilde_prefix_idempotent (m : list str) :
  ensure_tilde_prefix (ensure_tilde_prefix m) = ensure_tilde_prefix m.
Proof.
  rewrite !ensure_tilde_prefix_map, <- list_fmap_compose.
  apply list_fmap_ext. intros _ x _. apply normalize_marker_idem.
Qed.

(** ** Facts about the run of [re.sub] *)

Lemma length_list_mul {A : Type} (l : list A) (n : nat) :
  length (list_mul l n) = n * length l.
Proof. induction n as [|n IH]; simpl; [done|]. rewrite length_app, IH. lia. Qed.

Lemma list_mul_Forall {A : Type} (P : A -> Prop) (l : list A) (n : nat) :
  Forall P l -> Forall P (list_mul l n).
Proof. intros H. induction n as [|n IH]; simpl; [constructor|]. by apply Forall_app. Qed.

(** Position [k] of the repeated list is position [k mod len] of the list:
    the supply cycles through the markers. *)
Lemma list_mul_lookup {A : Type} (l : list A) (n k : nat) :
  k < n * length l -> list_mul l n !! k = l !! (k mod length l).
Proof.
  revert k. induction n as [|n IH]; intros k Hk; [simpl in Hk; lia|].
  simpl in *. destruct (decide (k < length l)) as [Hlt|Hge].
  - by rewrite lookup_app_l, Nat.mod_small.
  - rewrite lookup_app_r by lia. rewrite IH by lia. f_equal.
    replace k with ((k - length l) + 1 * length l) at 2 by lia.
    by rewrite Nat.Div0.mod_add.
Qed.

Section CyclerFacts.
Variable db : N -> bool.

Lemma is_word_tilde : is_word db tilde = false.
Proof. reflexivity. Qed.

Lemma total_letters_nil : total_letters db [] = 0.
Proof. reflexivity. Qed.

Lemma total_letters_cons (c : char) (text : str) :
  total_letters db (c :: text)
  = (if is_word db c then 1 else 0) + total_letters db text.
Proof.
  unfold total_letters, re_findall_w. simpl.
  destruct (is_word db c); simpl; by rewrite ?length_fmap.
Qed.

(** Every piece stands for one character of the text, in order. *)
Lemma re_sub_w_chars (text : str) (it : list str) :
  piece_char <$> re_sub_w db text it = text.
Proof.
  revert it. induction text as [|c text IH]; intros it; simpl; [done|].
  destruct (is_word db c).
  - unfold replacer. destruct it as [|p it]; simpl; by rewrite IH.
  - simpl. by rewrite IH.
Qed.

Lemma length_re_sub_w (text : str) (it : list str) :
  length (re_sub_w db text it) = length text.
Proof. by rewrite <- (re_sub_w_chars text it) at 2; rewrite length_fmap. Qed.

(** The markers drawn are taken from the front of the iterator. *)
Lemma drawn_take (text : str) (it : list str) :
  drawn (re_sub_w db text it) = take (total_letters db text) it.
Proof.
  revert it. induction text as [|c text IH]; intros it.
  - by rewrite take_0.
  - rewrite total_letters_cons. simpl. destruct (is_word db c); simpl.
    + destruct it as [|p it]; simpl.
      * rewrite IH. by rewrite take_nil.
      * by rewrite IH.
    + apply IH.
Qed.

(** With a supply long enough, [replacer] never takes the
    [StopIteration] branch. *)
Lemma re_sub_w_supplied (text : str) (it : list str) :
  total_letters db text <= length it ->
  Forall (fun e => forall c, e <> Unprefixed c) (re_sub_w db text it).
Proof.
  revert it. induction text as [|c text IH]; intros it; [constructor|].
  rewrite total_letters_cons. simpl. destruct (is_word db c); simpl.
  - destruct it as [|p it]; simpl; [lia|]. intros H.
    constructor; [discriminate|]. apply IH. lia.
  - intros H. constructor; [discriminate|]. by apply IH.
Qed.

Lemma joined_cons (e : piece) (es : list piece) :
  joined (e :: es) = piece_str e ++ joined es.
Proof. reflexivity. Qed.

Lemma re_sub_w_word (c : char) (text : str) (p : str) (it : list str) :
  is_word db c = true ->
  re_sub_w db (c :: text) (p :: it) = Prefixed p c :: re_sub_w db text it.
Proof. intros H. simpl. by rewrite H. Qed.

Lemma re_sub_w_exhausted (c : char) (text : str) :
  is_word db c = true ->
  re_sub_w db (c :: text) [] = Unprefixed c :: re_sub_w db text [].
Proof. intros H. simpl. by rewrite H. Qed.

Lemma re_sub_w_pass (c : char) (text : str) (it : list str) :
  is_word db c = false ->
  re_sub_w db (c :: text) it = Copied c :: re_sub_w db text it.
Proof. intros H. simpl. by rewrite H. Qed.

Lemma length_render (es : list piece) :
  length (joined es)
  = length es + sum_list (length <$> drawn es).
Proof.
  unfold joined.
  induction es as [|e es IH]; [done|].
  rewrite fmap_cons, concat_cons, length_app, IH.
  destruct e as [c|p c|c]; simpl; rewrite ?length_app; simpl;
    unfold fmap; lia.
Qed.

(** The output is the text with one string, possibly empty, inserted in
    front of each character. *)
Lemma render_zip (es : list piece) :
  joined es
  = concat (zip_with (fun p c => p ++ [c]) (inserted <$> es) (piece_char <$> es)).
Proof.
  unfold joined.
  induction es as [|e es IH]; [done|].
  rewrite !fmap_cons. simpl zip_with. rewrite !concat_cons, IH.
  by destruct e.
Qed.

Lemma length_ensure_pos (prefixes : list str) :
  prefixes <> [] -> 0 < length (ensure_tilde_prefix prefixes).
Proof.
  rewrite length_ensure_tilde_prefix. destruct prefixes; [done|simpl; lia].
Qed.

Lemma supply_covers (text : str) (prefixes : list str) :
  prefixes <> [] ->
  total_letters db text <= length (extended_prefixes db text prefixes).
Proof.
  intros H. apply length_ensure_pos in H.
  unfold extended_prefixes, repetitions_needed.
  rewrite length_list_mul.
  set (n := total_letters db text).
  set (k := length (ensure_tilde_prefix prefixes)) in *.
  pose proof (Nat.div_mod_eq n k).
  pose proof (Nat.mod_upper_bound n k ltac:(lia)).
  nia.
Qed.

Lemma guard_true (text : str) (prefixes : list str) :
  guard text prefixes = true <-> text = [] \/ prefixes = [].
Proof.
  destruct text, prefixes; simpl; split; intros; try done; auto.
  destruct H; done.
Qed.
End CyclerFacts.

(** ** The prefix cycler: specification properties *)

(** C1. What the code returns for ["Hello World!"] and [["W1"; "W2"]]:
    ["~W1H~W2e~W1l~W2l~W1o ~W2W~W1o~W2r~W1l~W2d!"].  The space (and the
    exclamation mark) pass through with no marker, the space consumes no
    marker, and the cycle continues across it ([o] draws [~W1], the space is
    copied, [W] draws [~W2]).  The example of the module docstring states
    another output for this input, with a marker in front of every
    character: the code does not return it (next lemma). *)
Theorem hello_world_decorated (db : N -> bool) :
  add_prefixes_to_letters db (py "Hello World!") [py "W1"; py "W2"]
  = py "~W1H~W2e~W1l~W2l~W1o ~W2W~W1o~W2r~W1l~W2d!"
  /\ pieces db (py "Hello World!") [py "W1"; py "W2"] !! 4
     = Some (Prefixed (py "~W1") 111%N)
  /\ pieces db (py "Hello World!") [py "W1"; py "W2"] !! 5
     = Some (Copied space)
  /\ pieces db (py "Hello World!") [py "W1"; py "W2"] !! 6
     = Some (Prefixed (py "~W2") 87%N)
  /\ pieces db (py "Hello World!") [py "W1"; py "W2"] !! 11
     = Some (Copied 33%N).
Proof. repeat split; reflexivity. Qed.

(** C1, the output stated by the module docstring's example: the code does
    not return it, since in it the space and the exclamation mark carry a
    marker. *)
Lemma hello_world_not_every_character :
  add_prefixes_to_letters latin1_only (py "Hello World!") [py "W1"; py "W2"]
  <> py "~W1H~W2e~W1l~W2l~W1o~W2 ~W1W~W2o~W1r~W2l~W1d~W2!".
Proof. vm_compute. discriminate. Qed.

(** C2. The length of the output is the length of the text plus the sum of
    the lengths of the markers consumed; the markers consumed are normalized
    markers, one per decoratable character, the [k]-th of them being the
    normalized marker at position [k mod len(markers)] (none is consumed when
    the marker list is empty and the text is returned as it is); and the
    output is the text with a string, possibly empty, inserted in front of
    each character, so the characters of the text keep their order. *)
Theorem decorate_length_and_order (db : N -> bool) (text : str) (markers : list str) :
  length (add_prefixes_to_letters db text markers)
  = length text + sum_list (length <$> markers_consumed db text markers)
  /\ Forall (fun p => p ∈ ensure_tilde_prefix markers)
            (markers_consumed db text markers)
  /\ (markers <> [] ->
      length (markers_consumed db text markers) = total_letters db text)
  /\ (markers <> [] ->
      forall k, k < total_letters db text ->
                markers_consumed db text markers !! k
                = ensure_tilde_prefix markers !! (k mod length markers))
  /\ (markers = [] -> markers_consumed db text markers = [])
  /\ exists ins : list str,
      length ins = length text
      /\ add_prefixes_to_letters db text markers
         = concat (zip_with (fun p c => p ++ [c]) ins text).
Proof.
  unfold add_prefixes_to_letters, markers_consumed.
  destruct (guard text markers) eqn:G.
  - split; [simpl; lia|]. split; [constructor|].
    split.
    { intros Hm. apply guard_true in G as [->|?]; [reflexivity|done]. }
    split.
    { intros Hm k Hk. apply guard_true in G as [->|?]; [|done].
      rewrite total_letters_nil in Hk. lia. }
    split; [done|].
    exists (replicate (length text) []). split; [apply length_replicate|].
    clear G. induction text as [|c text IH]; [done|].
    simpl. by rewrite <- IH.
  - assert (Hm : markers <> []).
    { intros ->. by destruct text. }
    unfold pieces. rewrite length_render, length_re_sub_w, drawn_take.
    split; [done|]. split.
    { apply Forall_take. unfold extended_prefixes.
      apply list_mul_Forall, Forall_forall. auto. }
    split.
    { intros _. rewrite length_take. pose proof (supply_covers db text markers Hm). lia. }
    split.
    { intros _ k Hk. rewrite lookup_take_lt by done.
      pose proof (supply_covers db text markers Hm) as Hs.
      unfold extended_prefixes in *. rewrite length_list_mul in Hs.
      rewrite list_mul_lookup by lia.
      by rewrite length_ensure_tilde_prefix. }
    split; [done|].
    exists (inserted <$> re_sub_w db text (extended_prefixes db text markers)).
    split; [by rewrite length_fmap, length_re_sub_w|].
    by rewrite render_zip, re_sub_w_chars.
Qed.

Lemma decorate_length_and_order_witness :
  length (markers_consumed latin1_only (py "Hi!") [py "A"; py "B"])
  = total_letters latin1_only (py "Hi!")
  /\ markers_consumed latin1_only (py "Hi!") [py "A"; py "B"] !! 1
     = ensure_tilde_prefix [py "A"; py "B"] !! (1 mod 2)
  /\ markers_consumed latin1_only (py "Hi!") [] = [].
Proof.
  destruct (decorate_length_and_order latin1_only (py "Hi!") [py "A"; py "B"])
    as (_ & _ & H & Hk & _).
  destruct (decorate_length_and_order latin1_only (py "Hi!") [])
    as (_ & _ & _ & _ & H0 & _).
  split; [apply H; discriminate|].
  split; [apply Hk; [discriminate | vm_compute; lia] | apply H0; reflexivity].
Defined.

(** C4. The call is the identity in both degenerate cases: on the empty text
    for every (non-empty) marker list, and on every text for the empty marker
    list. *)
Theorem decorate_identity_degenerate (db : N -> bool) :
  (forall markers : list str,
      markers <> [] -> add_prefixes_to_letters db [] markers = [])
  /\ (forall text : str, add_prefixes_to_letters db text [] = text).
Proof.
  split; [reflexivity|]. intros text. by destruct text.
Qed.

Lemma decorate_identity_degenerate_witness :
  add_prefixes_to_letters latin1_only [] [py "W1"; py "W2"] = [].
Proof.
  apply (proj1 (decorate_identity_degenerate latin1_only)). discriminate.
Defined.

(** C5. For a non-empty marker list the supply built before cycling is
    [R] copies of the normalized list with [R >= 1] and
    [R * len(markers) >= N], [N] the number of decoratable characters; so
    no piece of the run comes from the [StopIteration] branch of
    [replacer]. *)
Theorem marker_supply_sufficient (db : N -> bool) (text : str) (markers : list str) :
  markers <> [] ->
  1 <= repetitions_needed db text markers
  /\ total_letters db text <= repetitions_needed db text markers * length markers
  /\ length (extended_prefixes db text markers)
     = repetitions_needed db text markers * length markers
  /\ Forall (fun e => forall c, e <> Unprefixed c) (pieces db text markers).
Proof.
  intros Hm.
  pose proof (supply_covers db text markers Hm) as Hs.
  assert (Hl : length (extended_prefixes db text markers)
               = repetitions_needed db text markers * length markers).
  { unfold extended_prefixes.
    by rewrite length_list_mul, length_ensure_tilde_prefix. }
  split; [unfold repetitions_needed; lia|].
  split; [lia|]. split; [done|].
  by apply re_sub_w_supplied.
Qed.

Lemma marker_supply_sufficient_witness :
  1 <= repetitions_needed latin1_only (py "A1_b") [py "X"; py "Y"]
  /\ total_letters latin1_only (py "A1_b")
     <= repetitions_needed latin1_only (py "A1_b") [py "X"; py "Y"] * 2.
Proof.
  destruct (marker_supply_sufficient latin1_only (py "A1_b") [py "X"; py "Y"])
    as (H1 & H2 & _); [discriminate|].
  split; [exact H1 | exact H2].
Defined.

(** ** Removing the inserted markers *)

Section StripFacts.
Variable db : N -> bool.

Lemma marker_here_app (tok : str) (c : char) (out : str) :
  marker_here db tok (tok ++ c :: out) = is_word db c.
Proof.
  induction tok as [|t tok IH]; simpl; [done|].
  by rewrite N.eqb_refl, IH.
Qed.

Lemma marker_here_inv (tok out : str) :
  marker_here db tok out = true ->
  exists w rest, out = tok ++ w :: rest /\ is_word db w = true.
Proof.
  revert out. induction tok as [|t tok IH]; intros [|c out]; simpl; try done.
  - intros H. by exists c, out.
  - intros [Ht H]%andb_prop. apply N.eqb_eq in Ht as ->.
    destruct (IH _ H) as (w & rest & -> & Hw). by exists w, rest.
Qed.

(** A token does not stand in front of a word character at a place where
    it is itself preceded by pass-through characters up to its own start:
    comparing [r ++ w :: _] with [q ++ r ++ _], [q] non-empty and without
    word characters, either puts [w] inside [q] or moves the question to a
    shorter [r]. *)
Lemma marker_here_shifted (n : nat) (r q rest : str) :
  length r <= n ->
  q <> [] ->
  Forall (fun c => is_word db c = false) q ->
  marker_here db r (q ++ r ++ rest) = false.
Proof.
  revert r rest. induction n as [|n IH]; intros r rest Hn Hq Hnw;
    destruct (marker_here db r (q ++ r ++ rest)) eqn:E; try done;
    apply marker_here_inv in E as (w & z & E & Hw);
    apply app_eq_inv in E as [(k & Hk & E)|(k & Hk & E)].
  - destruct r; [|simpl in Hn; lia]. simpl in *. subst k.
    destruct q as [|c q]; [done|]. injection E as -> _.
    apply Forall_cons in Hnw as [Hc _]. congruence.
  - destruct r; [|simpl in Hn; lia]. by destruct q.
  - subst q. destruct k as [|c k].
    + rewrite app_nil_r in *. destruct r as [|c r]; [done|].
      injection E as -> _. apply Forall_cons in Hnw as [Hc _]. congruence.
    + injection E as -> _.
      apply Forall_app in Hnw as [_ [Hc _]%Forall_cons]. congruence.
  - subst r. rewrite <- app_assoc in E.
    assert (Hlen : length k <= n).
    { rewrite length_app in Hn. destruct q; [done|]. simpl in Hn. lia. }
    specialize (IH k rest Hlen Hq Hnw).
    rewrite E, marker_here_app in IH. congruence.
Qed.

Lemma strip_markers_skip (toks : list str) (r out : str) :
  strip_markers db toks (length r) (r ++ out) = strip_markers db toks 0 out.
Proof.
  induction r as [|c r IH]; [done|]. simpl. by destruct toks.
Qed.

Lemma strip_markers_copy (toks : list str) (c : char) (out : str) :
  (forall tok, head toks = Some tok -> marker_here db tok (c :: out) = false) ->
  strip_markers db toks 0 (c :: out) = c :: strip_markers db toks 0 out.
Proof.
  intros H. destruct toks as [|tok toks]; [done|].
  cbn [strip_markers]. by rewrite (H tok eq_refl).
Qed.

Lemma strip_markers_token (tok : str) (toks : list str) (c : char) (out : str) :
  startswith_tilde tok = true ->
  is_word db c = true ->
  strip_markers db (tok :: toks) 0 (tok ++ c :: out)
  = strip_markers db toks 0 (c :: out).
Proof.
  intros Ht Hc. destruct tok as [|t r]; [done|].
  change ((t :: r) ++ c :: out) with (t :: (r ++ c :: out)).
  cbn [strip_markers].
  change (t :: (r ++ c :: out)) with ((t :: r) ++ c :: out).
  rewrite marker_here_app, Hc. cbn [length].
  apply strip_markers_skip.
Qed.

(** A token starting with [~] never matches at a word character. *)
Lemma marker_here_word (tok : str) (c : char) (out : str) :
  startswith_tilde tok = true ->
  is_word db c = true ->
  marker_here db tok (c :: out) = false.
Proof.
  intros Ht Hc. destruct tok as [|t r]; [done|]. simpl in *.
  apply N.eqb_eq in Ht as ->.
  destruct (tilde =? c)%N eqn:E; [|done].
  apply N.eqb_eq in E as <-. by rewrite is_word_tilde in Hc.
Qed.

(** The rendering of a run that draws a marker starts with pass-through
    characters followed by the first marker drawn. *)
Lemma render_first_marker (text : str) (it : list str) (tok : str) (toks : list str) :
  drawn (re_sub_w db text it) = tok :: toks ->
  exists q rest,
    Forall (fun c => is_word db c = false) q
    /\ joined (re_sub_w db text it) = q ++ tok ++ rest.
Proof.
  revert it. induction text as [|c text IH]; intros it; [done|].
  destruct (is_word db c) eqn:Hc.
  - destruct it as [|p it].
    + rewrite drawn_take, take_nil. done.
    + rewrite re_sub_w_word by done. intros [= -> _].
      exists [], (c :: joined (re_sub_w db text it)).
      split; [constructor|]. rewrite joined_cons. simpl.
      by rewrite <- app_assoc.
  - rewrite re_sub_w_pass by done. intros H.
    destruct (IH it H) as (q & rest & Hq & E).
    exists (c :: q), rest. split; [by constructor|].
    rewrite joined_cons, E. done.
Qed.

Lemma drawn_starts_tilde (text : str) (it : list str) (tok : str) :
  Forall (fun p => startswith_tilde p = true) it ->
  head (drawn (re_sub_w db text it)) = Some tok ->
  startswith_tilde tok = true.
Proof.
  intros Hit Htok. rewrite drawn_take in Htok.
  apply (Forall_take _ (total_letters db text)) in Hit.
  destruct (take _ it); [done|]. injection Htok as ->.
  by apply Forall_cons in Hit as [? _].
Qed.

Lemma strip_markers_run (text : str) (it : list str) :
  Forall (fun p => startswith_tilde p = true) it ->
  strip_markers db (drawn (re_sub_w db text it)) 0 (joined (re_sub_w db text it))
  = text.
Proof.
  revert it. induction text as [|c text IH]; intros it Hit; [done|].
  destruct (is_word db c) eqn:Hc.
  - destruct it as [|p it].
    + rewrite re_sub_w_exhausted, joined_cons by done.
      change (drawn (Unprefixed c :: ?es)) with (drawn es).
      change (piece_str (Unprefixed c) ++ ?l) with (c :: l).
      rewrite strip_markers_copy; [by rewrite IH|].
      intros tok Htok. apply marker_here_word; [|done].
      by eapply drawn_starts_tilde.
    + apply Forall_cons in Hit as [Hp Hit].
      rewrite re_sub_w_word, joined_cons by done.
      change (drawn (Prefixed p c :: ?es)) with (p :: drawn es).
      change (piece_str (Prefixed p c) ++ ?l) with ((p ++ [c]) ++ l).
      rewrite <- app_assoc.
      change ([c] ++ ?l) with (c :: l).
      rewrite strip_markers_token by done.
      rewrite strip_markers_copy; [by rewrite IH|].
      intros tok Htok. apply marker_here_word; [|done].
      by eapply drawn_starts_tilde.
  - rewrite re_sub_w_pass, joined_cons by done.
    change (drawn (Copied c :: ?es)) with (drawn es).
    change (piece_str (Copied c) ++ ?l) with (c :: l).
    rewrite strip_markers_copy; [by rewrite IH|].
    intros tok Htok.
    pose proof (drawn_starts_tilde _ _ _ Hit Htok) as Ht.
    destruct (drawn (re_sub_w db text it)) as [|tok' toks] eqn:Ed; [done|].
    injection Htok as ->.
    destruct (render_first_marker _ _ _ _ Ed) as (q & rest & Hq & E).
    rewrite E.
    destruct tok as [|t r]; [done|]. simpl in Ht. apply N.eqb_eq in Ht as ->.
    cbn [marker_here]. destruct (tilde =? c)%N eqn:Etc; [|done].
    rewrite andb_true_l.
    replace (q ++ (tilde :: r) ++ rest) with ((q ++ [tilde]) ++ r ++ rest)
      by (by rewrite <- app_assoc).
    apply (marker_here_shifted (length r)); [done|by destruct q|].
    apply Forall_app. split; [done|]. constructor; [|constructor].
    apply is_word_tilde.
Qed.
End StripFacts.

(** C3. Removing the inserted markers from the output gives back the text:
    every inserted token is a normalized marker, starting with [~], and
    [strip_markers], dropping each of them where it stands in front of the
    word character it decorates, returns exactly the text. *)
Theorem strip_markers_roundtrip (db : N -> bool) (text : str) (markers : list str) :
  strip_markers db (markers_consumed db text markers) 0
                (add_prefixes_to_letters db text markers)
  = text
  /\ Forall (fun p => head p = Some tilde) (markers_consumed db text markers).
Proof.
  unfold markers_consumed, add_prefixes_to_letters.
  assert (Hs : Forall (fun p => startswith_tilde p = true)
                      (extended_prefixes db text markers)).
  { apply list_mul_Forall, ensure_tilde_prefix_all_tilde. }
  destruct (guard text markers).
  - split; [|constructor]. clear Hs.
    induction text as [|c text IH]; [done|]. simpl. by rewrite IH.
  - split; [by apply strip_markers_run|].
    unfold pieces. rewrite drawn_take. apply Forall_take.
    eapply Forall_impl; [exact Hs|]. intros p. apply startswith_tilde_head.
Qed.

(** ** The decoratable class *)

Section ClassFacts.
Variable db : N -> bool.

Lemma re_sub_w_lookup (text : str) (it : list str) (i : nat) (c : char) :
  total_letters db text <= length it ->
  text !! i = Some c ->
  if is_word db c
  then exists p, re_sub_w db text it !! i = Some (Prefixed p c) /\ p ∈ it
  else re_sub_w db text it !! i = Some (Copied c).
Proof.
  revert it i. induction text as [|c0 text IH]; intros it i Hn Hi; [done|].
  rewrite total_letters_cons in Hn.
  destruct i as [|i]; simpl in Hi.
  - injection Hi as ->. destruct (is_word db c) eqn:Hc.
    + destruct it as [|p it]; [simpl in Hn; lia|].
      rewrite re_sub_w_word by done. exists p. split; [done|]. apply list_elem_of_here.
    + by rewrite re_sub_w_pass.
  - destruct (is_word db c0) eqn:Hc0.
    + destruct it as [|p it]; [simpl in Hn; lia|].
      rewrite re_sub_w_word by done. simpl in Hn.
      specialize (IH it i ltac:(lia) Hi).
      destruct (is_word db c); [|done].
      destruct IH as (q & Hq & Hin). exists q. split; [done|].
      by apply list_elem_of_further.
    + rewrite re_sub_w_pass by done. apply IH; [lia|done].
Qed.

Lemma list_mul_elem {A : Type} (x : A) (l : list A) (n : nat) :
  x ∈ list_mul l n -> x ∈ l.
Proof.
  induction n as [|n IH]; simpl; [by intros ?%elem_of_nil|].
  intros [?|?]%elem_of_app; auto.
Qed.
End ClassFacts.

(** C8 (as the code behaves). The decoratable characters are those [\w]
    matches on a [str]: below U+0080 exactly the ASCII letters, digits and
    underscore; from U+0080 on the characters that are alphanumeric in the
    Unicode database (on Latin-1 those of [latin1_alnum], beyond it those of
    the table).  In a run with a non-empty marker list a character of the
    text receives a normalized marker exactly when it is in that class, and
    is copied otherwise. *)
Theorem decoratable_class (db : N -> bool) (c : char) :
  ((c < 0x80)%N -> is_word db c = ascii_word c)
  /\ ((0x80 <= c < 0x100)%N -> is_word db c = latin1_alnum c)
  /\ ((0x100 <= c)%N -> is_word db c = db c)
  /\ forall (text : str) (markers : list str) (i : nat),
      markers <> [] ->
      text !! i = Some c ->
      if is_word db c
      then exists p, pieces db text markers !! i = Some (Prefixed p c)
                     /\ p ∈ ensure_tilde_prefix markers
      else pieces db text markers !! i = Some (Copied c).
Proof.
  split; [|split; [|split]].
  - intros H. unfold is_word, py_isalnum, ascii_word.
    apply N.ltb_lt in H. by rewrite H.
  - intros [H1 H2]. unfold is_word, py_isalnum.
    apply N.ltb_ge in H1. apply N.ltb_lt in H2. rewrite H1, H2.
    replace (c =? underscore)%N with false; [apply orb_false_r|].
    symmetry. apply N.eqb_neq. apply N.ltb_ge in H1. unfold underscore. lia.
  - intros H. unfold is_word, py_isalnum.
    assert (H1 : (c <? 0x80)%N = false) by (apply N.ltb_ge; lia).
    assert (H2 : (c <? 0x100)%N = false) by (by apply N.ltb_ge).
    rewrite H1, H2.
    replace (c =? underscore)%N with false; [apply orb_false_r|].
    symmetry. apply N.eqb_neq. unfold underscore. lia.
  - intros text markers i Hm Hi.
    pose proof (re_sub_w_lookup db text (extended_prefixes db text markers) i c
                  (supply_covers db text markers Hm) Hi) as H.
    unfold pieces. destruct (is_word db c); [|done].
    destruct H as (p & Hp & Hin). exists p. split; [done|].
    by apply list_mul_elem in Hin.
Qed.

Lemma decoratable_class_witness :
  is_word latin1_only 233%N = latin1_alnum 233%N
  /\ is_word latin1_only 95%N = ascii_word 95%N
  /\ pieces latin1_only [233%N; 33%N] [py "A"] !! 1 = Some (Copied 33%N).
Proof.
  split; [|split].
  - apply (decoratable_class latin1_only 233%N). split; [by vm_compute|reflexivity].
  - apply (decoratable_class latin1_only 95%N). reflexivity.
  - destruct (decoratable_class latin1_only 33%N) as (_ & _ & _ & H).
    apply (H [233%N; 33%N] [py "A"] 1); [discriminate|reflexivity].
Defined.

(** C8, the ASCII-only reading: the letter U+00E9 (e with acute accent) is
    no ASCII letter, digit or underscore, and yet it receives a prefix. *)
Lemma non_ascii_letter_decorated :
  ascii_word 233%N = false
  /\ add_prefixes_to_letters latin1_only [233%N] [py "A"] = py "~A" ++ [233%N].
Proof. split; reflexivity. Qed.

(** ** Stride dyeing: specification properties *)

Module DyeingFacts.
Import Dyeing.

Lemma colour_group_acc (c : str) (p : list char) (acc : list str) :
  fold_left
    (fun pc i => if (i =? space)%N then pc ++ [[i]] else pc ++ [c ++ [i]])
    p acc
  = acc ++ (coloured c <$> p).
Proof.
  revert acc. induction p as [|i p IH]; intros acc.
  - simpl. by rewrite app_nil_r.
  - rewrite fmap_cons. cbn [fold_left]. rewrite IH. unfold coloured at 2.
    destruct (i =? space)%N; by rewrite <- app_assoc.
Qed.

Lemma colour_group_cons (c : str) (i : char) (p : list char) :
  colour_group c (i :: p) = coloured c i :: colour_group c p.
Proof. unfold colour_group. by rewrite !colour_group_acc. Qed.

(** Every coloured character is a non-empty string, so [if f:] holds. *)
Lemma append_coloured (form : list str) (c : str) (i : char) :
  append_if_truthy form (Some (coloured c i)) = form ++ [coloured c i].
Proof. unfold coloured. destruct (i =? space)%N; [done|]. by destruct c. Qed.

Lemma zip_longest2_cons {A : Type} (x y : A) (a b : list A) :
  zip_longest2 (x :: a) (y :: b) = (Some x, Some y) :: zip_longest2 a b.
Proof.
  unfold zip_longest2. simpl. f_equal.
  by rewrite <- fmap_S_seq, <- list_fmap_compose.
Qed.

Lemma zip_longest4_cons {A : Type} (x y z t : A) (a b c d : list A) :
  zip_longest4 (x :: a) (y :: b) (z :: c) (t :: d)
  = (Some x, Some y, Some z, Some t) :: zip_longest4 a b c d.
Proof.
  unfold zip_longest4. simpl. f_equal.
  by rewrite <- fmap_S_seq, <- list_fmap_compose.
Qed.

Section Form.
Context {T : Type} (step : list str -> T -> list str).
Hypothesis step_app :
  forall form x, step form x = form ++ step [] x.

Lemma form_acc (l : list T) (acc : list str) :
  fold_left step l acc = acc ++ fold_left step l [].
Proof.
  revert acc. induction l as [|x l IH]; intros acc; simpl.
  - by rewrite app_nil_r.
  - rewrite (IH (step acc x)), (IH (step [] x)), (step_app acc x).
    by rewrite app_assoc.
Qed.
End Form.

Lemma append_if_truthy_app (form : list str) (f : option str) :
  append_if_truthy form f = form ++ append_if_truthy [] f.
Proof. destruct f as [[|? ?]|]; simpl; by rewrite ?app_nil_r. Qed.

Lemma step2_app form x : step2 form x = form ++ step2 [] x.
Proof.
  destruct x as [f b]. unfold step2.
  rewrite (append_if_truthy_app _ b), (append_if_truthy_app _ f).
  rewrite (append_if_truthy_app (append_if_truthy [] f) b).
  by rewrite <- !app_assoc.
Qed.

Lemma step4_app form x : step4 form x = form ++ step4 [] x.
Proof.
  destruct x as [[[a b] c] d]. unfold step4.
  rewrite (append_if_truthy_app _ d), (append_if_truthy_app _ c),
    (append_if_truthy_app _ b), (append_if_truthy_app _ a).
  rewrite (append_if_truthy_app (append_if_truthy _ c) d),
    (append_if_truthy_app (append_if_truthy _ b) c),
    (append_if_truthy_app (append_if_truthy [] a) b).
  by rewrite <- !app_assoc.
Qed.

Lemma alternating_unfold (text c1 c2 : str) :
  alternating text c1 c2
  = concat (fold_left step2
              (zip_longest2 (colour_group c1 (slice_step 0 2 text))
                            (colour_group c2 (slice_step 1 2 text))) []).
Proof. reflexivity. Qed.

Lemma triplealternate_unfold (text c1 c2 c3 : str) :
  triplealternate text c1 c2 c3
  = concat (fold_left step4
              (zip_longest4 (colour_group c1 (slice_step 0 4 text))
                            (colour_group c2 (slice_step 1 4 text))
                            (colour_group c3 (slice_step 2 4 text))
                            (colour_group c2 (slice_step 3 4 text))) []).
Proof. reflexivity. Qed.

(** Two characters of the text give one round of the loop over
    [zip_longest]. *)
Lemma alternating_step (x y : char) (text c1 c2 : str) :
  alternating (x :: y :: text) c1 c2
  = coloured c1 x ++ coloured c2 y ++ alternating text c1 c2.
Proof.
  rewrite !alternating_unfold.
  change (slice_step 0 2 (x :: y :: text)) with (x :: slice_step 0 2 text).
  change (slice_step 1 2 (x :: y :: text)) with (y :: slice_step 1 2 text).
  rewrite !colour_group_cons, zip_longest2_cons.
  cbn [fold_left]. rewrite (form_acc step2 step2_app).
  unfold step2 at 1. rewrite !append_coloured.
  rewrite concat_app. simpl. by rewrite app_nil_r, <- !app_assoc.
Qed.

Lemma triplealternate_step (x y z t : char) (text c1 c2 c3 : str) :
  triplealternate (x :: y :: z :: t :: text) c1 c2 c3
  = coloured c1 x ++ coloured c2 y ++ coloured c3 z ++ coloured c2 t
    ++ triplealternate text c1 c2 c3.
Proof.
  rewrite !triplealternate_unfold.
  change (slice_step 0 4 (x :: y :: z :: t :: text))
    with (x :: slice_step 0 4 text).
  change (slice_step 1 4 (x :: y :: z :: t :: text))
    with (y :: slice_step 1 4 text).
  change (slice_step 2 4 (x :: y :: z :: t :: text))
    with (z :: slice_step 2 4 text).
  change (slice_step 3 4 (x :: y :: z :: t :: text))
    with (t :: slice_step 3 4 text).
  rewrite !colour_group_cons, zip_longest4_cons.
  cbn [fold_left]. rewrite (form_acc step4 step4_app).
  unfold step4 at 1. rewrite !append_coloured.
  rewrite concat_app. simpl. by rewrite app_nil_r, <- !app_assoc.
Qed.

Lemma dye_cons (colour : nat -> str) (x : char) (text : str) :
  dye colour (x :: text)
  = coloured (colour 0) x ++ dye (colour ∘ S) text.
Proof. reflexivity. Qed.

Lemma dye_ext (f g : nat -> str) (text : str) :
  (forall i, f i = g i) -> dye f text = dye g text.
Proof.
  intros H. unfold dye. f_equal. apply imap_ext. intros i x _.
  by rewrite H.
Qed.

Lemma pairs_ind (P : str -> Prop) :
  P [] -> (forall x, P [x]) -> (forall x y l, P l -> P (x :: y :: l)) ->
  forall l, P l.
Proof.
  intros H0 H1 H2.
  assert (H : forall l, P l /\ forall x, P (x :: l)).
  { induction l as [|y l [IH1 IH2]]; split; auto. }
  intros l. apply H.
Qed.

Lemma quads_ind (P : str -> Prop) :
  P [] -> (forall x, P [x]) -> (forall x y, P [x; y]) ->
  (forall x y z, P [x; y; z]) ->
  (forall x y z t l, P l -> P (x :: y :: z :: t :: l)) ->
  forall l, P l.
Proof.
  intros H0 H1 H2 H3 H4.
  assert (H : forall l, P l /\ (forall x, P (x :: l))
                        /\ (forall x y, P (x :: y :: l))
                        /\ (forall x y z, P (x :: y :: z :: l))).
  { induction l as [|t l (IH0 & IH1 & IH2 & IH3)]; repeat split; auto. }
  intros l. apply H.
Qed.

Lemma four_cycle_shift (c1 c2 c3 : str) (i : nat) :
  four_cycle c1 c2 c3 (S (S (S (S i)))) = four_cycle c1 c2 c3 i.
Proof.
  unfold four_cycle.
  replace (S (S (S (S i)))) with (i + 1 * 4) by lia.
  by rewrite Nat.Div0.mod_add.
Qed.

Lemma colour_group_nil (c : str) : colour_group c [] = [].
Proof. reflexivity. Qed.

(** Texts shorter than one round: [zip_longest] yields one tuple, filled
    with [None] where a group is empty. *)
Ltac short_text :=
  rewrite ?alternating_unfold, ?triplealternate_unfold;
  cbn [slice_step Nat.sub];
  rewrite ?colour_group_cons, ?colour_group_nil;
  cbv [zip_longest2 zip_longest4 length Nat.max seq fmap list_fmap
       lookup list_lookup];
  cbn [fold_left step2 step4];
  rewrite ?append_coloured;
  reflexivity.

Lemma alternating_dye (text c1 c2 : str) :
  alternating text c1 c2 = dye (two_cycle c1 c2) text.
Proof.
  induction text as [| x | x y text IH] using pairs_ind.
  - reflexivity.
  - short_text.
  - rewrite alternating_step, IH, !dye_cons. do 2 f_equal.
Qed.

Lemma triplealternate_dye (text c1 c2 c3 : str) :
  triplealternate text c1 c2 c3 = dye (four_cycle c1 c2 c3) text.
Proof.
  induction text as [| x | x y | x y z | x y z t text IH] using quads_ind.
  - reflexivity.
  - short_text.
  - short_text.
  - short_text.
  - rewrite triplealternate_step, IH, !dye_cons. do 4 f_equal.
    apply dye_ext. intros i. symmetry. apply four_cycle_shift.
Qed.
End DyeingFacts.

(** C9 (as the code behaves). [alternating] assigns colours by absolute
    position, over all characters: a character at an even index that is not
    a space is emitted with [c1] in front, one at an odd index with [c2]; a
    space is emitted bare but still occupies its index; the characters keep
    their order. *)
Theorem alternating_by_position (text c1 c2 : str) :
  Dyeing.alternating text c1 c2 = Dyeing.dye (Dyeing.two_cycle c1 c2) text
  /\ (forall i, Nat.even i = true -> Dyeing.two_cycle c1 c2 i = c1)
  /\ (forall i, Nat.even i = false -> Dyeing.two_cycle c1 c2 i = c2).
Proof.
  split; [apply DyeingFacts.alternating_dye|].
  unfold Dyeing.two_cycle. split; intros i ->; reflexivity.
Qed.

Lemma alternating_by_position_witness :
  Dyeing.two_cycle (py "~L7") (py "~G2") 4 = py "~L7"
  /\ Dyeing.two_cycle (py "~L7") (py "~G2") 7 = py "~G2".
Proof.
  destruct (alternating_by_position (py "a b") (py "~L7") (py "~G2"))
    as (_ & He & Ho).
  split; [apply He | apply Ho]; reflexivity.
Defined.

(** C9, the reading in which every character is prefixed: a space at an
    odd index is not emitted with [c2] in front. *)
Lemma alternating_space_unprefixed :
  Dyeing.alternating (py "a b") (py "~L7") (py "~G2") = py "~L7a ~L7b"
  /\ Dyeing.alternating (py "a b") (py "~L7") (py "~G2")
     <> Dyeing.dye_all (Dyeing.two_cycle (py "~L7") (py "~G2")) (py "a b").
Proof. split; [reflexivity|]. vm_compute. discriminate. Qed.

(** C10. [triplealternate] cycles [c1], [c2], [c3], [c2] by position: a
    character that is not a space is emitted with the colour of its index
    modulo 4 in front ([c2] for remainder 3 as for remainder 1, [c3] for
    remainder 2 only), and a space is emitted bare whatever its index. *)
Theorem triplealternate_cycle (text c1 c2 c3 : str) :
  Dyeing.triplealternate text c1 c2 c3
  = Dyeing.dye (Dyeing.four_cycle c1 c2 c3) text
  /\ (forall i, i mod 4 = 0 -> Dyeing.four_cycle c1 c2 c3 i = c1)
  /\ (forall i, i mod 4 = 1 -> Dyeing.four_cycle c1 c2 c3 i = c2)
  /\ (forall i, i mod 4 = 2 -> Dyeing.four_cycle c1 c2 c3 i = c3)
  /\ (forall i, i mod 4 = 3 -> Dyeing.four_cycle c1 c2 c3 i = c2)
  /\ (forall c : str, Dyeing.coloured c space = [space]).
Proof.
  split; [apply DyeingFacts.triplealternate_dye|].
  unfold Dyeing.four_cycle.
  repeat split; try (intros i ->; reflexivity).
Qed.

Lemma triplealternate_cycle_witness :
  Dyeing.four_cycle (py "~W9") (py "~W8") (py "~W7") 7 = py "~W8"
  /\ Dyeing.four_cycle (py "~W9") (py "~W8") (py "~W7") 6 = py "~W7".
Proof.
  destruct (triplealternate_cycle (py "abc") (py "~W9") (py "~W8") (py "~W7"))
    as (_ & _ & _ & H2 & H3 & _).
  split; [apply H3 | apply H2]; reflexivity.
Defined.


(** * Further properties of the code *)

(** ** The prefix cycler as modulo cycling *)

Section CyclingFacts.
Variable db : N -> bool.

Lemma re_sub_w_cycle (nm : list str) (text : str) (it : list str) (k : nat) :
  (forall j, j < total_letters db text -> it !! j = Some (marker_at nm (k + j))) ->
  joined (re_sub_w db text it) = cycle_from db nm k text.
Proof.
  revert it k. induction text as [|c text IH]; intros it k Hit; [done|].
  rewrite total_letters_cons in Hit. cbn [cycle_from].
  destruct (is_word db c) eqn:Hc.
  - pose proof (Hit 0 ltac:(lia)) as H0. destruct it as [|p it]; [done|].
    injection H0 as ->. rewrite Nat.add_0_r.
    rewrite re_sub_w_word, joined_cons by done. cbn [piece_str].
    rewrite <- app_assoc. f_equal. cbn [app]. f_equal. apply IH.
    intros j Hj. specialize (Hit (S j) ltac:(lia)). simpl in Hit.
    by replace (S k + j) with (k + S j) by lia.
  - rewrite re_sub_w_pass, joined_cons by done. cbn [piece_str app].
    f_equal. apply IH. intros j Hj. apply Hit. lia.
Qed.

Lemma marker_at_lookup (nm : list str) (k : nat) :
  nm <> [] -> nm !! (k mod length nm) = Some (marker_at nm k).
Proof.
  intros Hnm. unfold marker_at.
  destruct (nm !! (k mod length nm)) eqn:E; [done|].
  apply lookup_ge_None in E.
  pose proof (Nat.mod_upper_bound k (length nm)).
  destruct nm; [done|]. simpl in *. lia.
Qed.

Lemma add_prefixes_cycle (text : str) (prefixes : list str) :
  prefixes <> [] ->
  add_prefixes_to_letters db text prefixes
  = cycle_from db (ensure_tilde_prefix prefixes) 0 text.
Proof.
  intros Hp. unfold add_prefixes_to_letters.
  destruct (guard text prefixes) eqn:G.
  - apply guard_true in G as [->|?]; done.
  - unfold pieces. apply re_sub_w_cycle. intros j Hj.
    pose proof (supply_covers db text prefixes Hp) as Hs.
    unfold extended_prefixes in *. rewrite length_list_mul in Hs.
    rewrite list_mul_lookup by lia.
    apply marker_at_lookup.
    intros E. apply (f_equal length) in E.
    rewrite length_ensure_tilde_prefix in E. by destruct prefixes.
Qed.

Lemma marker_at_mod (nm : list str) (k k' : nat) :
  k mod length nm = k' mod length nm -> marker_at nm k = marker_at nm k'.
Proof. unfold marker_at. by intros ->. Qed.

Lemma cycle_from_mod (nm : list str) (text : str) (k k' : nat) :
  k mod length nm = k' mod length nm ->
  cycle_from db nm k text = cycle_from db nm k' text.
Proof.
  revert k k'. induction text as [|c text IH]; intros k k' Hk; [done|].
  cbn [cycle_from]. destruct (is_word db c).
  - rewrite (marker_at_mod nm k k' Hk). do 2 f_equal. apply IH.
    replace (S k) with (k + 1) by lia. replace (S k') with (k' + 1) by lia.
    rewrite (Nat.Div0.add_mod k), (Nat.Div0.add_mod k'). by rewrite Hk.
  - f_equal. by apply IH.
Qed.

Lemma cycle_from_app (nm : list str) (t1 t2 : str) (k : nat) :
  cycle_from db nm k (t1 ++ t2)
  = cycle_from db nm k t1 ++ cycle_from db nm (k + total_letters db t1) t2.
Proof.
  revert k. induction t1 as [|c t1 IH]; intros k.
  - simpl. by rewrite total_letters_nil, Nat.add_0_r.
  - rewrite total_letters_cons. cbn [app cycle_from].
    destruct (is_word db c).
    + rewrite IH, <- app_assoc. cbn [app].
      by replace (S k + total_letters db t1) with (k + (1 + total_letters db t1)) by lia.
    + rewrite IH. by cbn [app].
Qed.

Lemma total_letters_app (t1 t2 : str) :
  total_letters db (t1 ++ t2) = total_letters db t1 + total_letters db t2.
Proof.
  induction t1 as [|c t1 IH]; [done|].
  cbn [app]. rewrite !total_letters_cons, IH. lia.
Qed.

Lemma cycle_from_no_word (nm : list str) (text : str) (k : nat) :
  total_letters db text = 0 -> cycle_from db nm k text = text.
Proof.
  induction text as [|c text IH]; [done|].
  rewrite total_letters_cons. cbn [cycle_from].
  destruct (is_word db c); [lia|]. intros H. f_equal. by apply IH.
Qed.
End CyclingFacts.

(** X1. For a non-empty marker list the result is the text in which the
    [k]-th word character, counting from 0, is prefixed by the normalized
    marker at position [k mod len(prefixes)], every other character being
    copied. *)
Theorem add_prefixes_modulo_cycling (db : N -> bool) (text : str) (prefixes : list str) :
  prefixes <> [] ->
  add_prefixes_to_letters db text prefixes
  = cycle_from db (ensure_tilde_prefix prefixes) 0 text.
Proof. apply add_prefixes_cycle. Qed.

Lemma add_prefixes_modulo_cycling_witness :
  add_prefixes_to_letters latin1_only (py "a-b c") [py "X"; py "~Y"]
  = cycle_from latin1_only [py "~X"; py "~Y"] 0 (py "a-b c").
Proof.
  apply (add_prefixes_modulo_cycling latin1_only (py "a-b c") [py "X"; py "~Y"]).
  discriminate.
Defined.

(** X2. Markers given already normalized give the same result as the raw
    markers: normalizing the list before the call changes nothing. *)
Theorem add_prefixes_normalized_markers (db : N -> bool) (text : str) (prefixes : list str) :
  add_prefixes_to_letters db text (ensure_tilde_prefix prefixes)
  = add_prefixes_to_letters db text prefixes.
Proof.
  assert (Hi : ensure_tilde_prefix (ensure_tilde_prefix prefixes)
               = ensure_tilde_prefix prefixes).
  { rewrite !ensure_tilde_prefix_map, <- list_fmap_compose.
    apply list_fmap_ext. intros _ x _. apply normalize_marker_idem. }
  destruct prefixes as [|p ps].
  - reflexivity.
  - rewrite (add_prefixes_cycle db text (p :: ps)) by done.
    rewrite add_prefixes_cycle, Hi; [done|].
    rewrite ensure_tilde_prefix_map. done.
Qed.

(** X3. When the number of word characters of a first text is a multiple of
    the number of markers, the result for the two texts concatenated is the
    concatenation of the two results: the cycle starts again at the first
    marker. *)
Theorem add_prefixes_concatenation (db : N -> bool) (t1 t2 : str) (prefixes : list str) :
  prefixes <> [] ->
  total_letters db t1 mod length prefixes = 0 ->
  add_prefixes_to_letters db (t1 ++ t2) prefixes
  = add_prefixes_to_letters db t1 prefixes
    ++ add_prefixes_to_letters db t2 prefixes.
Proof.
  intros Hp Hm. rewrite !add_prefixes_cycle by done.
  rewrite cycle_from_app. f_equal. apply cycle_from_mod.
  rewrite length_ensure_tilde_prefix. cbn [Nat.add]. rewrite Hm.
  symmetry. apply Nat.Div0.mod_0_l.
Qed.

Lemma add_prefixes_concatenation_witness :
  add_prefixes_to_letters latin1_only (py "ab, " ++ py "cd") [py "X"; py "Y"]
  = add_prefixes_to_letters latin1_only (py "ab, ") [py "X"; py "Y"]
    ++ add_prefixes_to_letters latin1_only (py "cd") [py "X"; py "Y"].
Proof.
  apply (add_prefixes_concatenation latin1_only (py "ab, ") (py "cd")
           [py "X"; py "Y"]); [discriminate | reflexivity].
Defined.

(** X4. A text without any word character is returned unchanged, whatever
    the markers. *)
Theorem add_prefixes_no_word_character (db : N -> bool) (text : str) (prefixes : list str) :
  Forall (fun c => is_word db c = false) text ->
  add_prefixes_to_letters db text prefixes = text.
Proof.
  intros H. destruct prefixes as [|p ps]; [by destruct text|].
  rewrite add_prefixes_cycle by done. apply cycle_from_no_word.
  induction H as [|c text Hc _ IH]; [done|].
  rewrite total_letters_cons, Hc. done.
Qed.

Lemma add_prefixes_no_word_character_witness :
  add_prefixes_to_letters latin1_only (py "... !?") [py "W1"; py "W2"]
  = py "... !?".
Proof.
  apply (add_prefixes_no_word_character latin1_only (py "... !?")
           [py "W1"; py "W2"]).
  repeat constructor.
Defined.

(** ** Stride dyeing: further facts *)

Module DyeingMore.
Import Dyeing DyeingFacts.

Lemma even_mod_4 (i : nat) : Nat.even i = Nat.even (i mod 4).
Proof.
  rewrite (Nat.div_mod_eq i 4) at 1.
  replace (4 * (i / 4) + i mod 4) with (i mod 4 + 2 * (2 * (i / 4))) by lia.
  apply Nat.even_add_mul_2.
Qed.

Lemma four_cycle_two (c1 c2 : str) (i : nat) :
  four_cycle c1 c2 c1 i = two_cycle c1 c2 i.
Proof.
  unfold four_cycle, two_cycle. rewrite even_mod_4.
  pose proof (Nat.mod_upper_bound i 4 ltac:(lia)) as H.
  destruct (i mod 4) as [|[|[|[|n]]]]; try reflexivity. lia.
Qed.

Lemma dye_app (colour : nat -> str) (t1 t2 : str) :
  dye colour (t1 ++ t2)
  = dye colour t1 ++ dye (fun i => colour (length t1 + i)) t2.
Proof. unfold dye. by rewrite imap_app, concat_app. Qed.

Lemma two_cycle_even_shift (c1 c2 : str) (n i : nat) :
  Nat.even n = true -> two_cycle c1 c2 (n + i) = two_cycle c1 c2 i.
Proof.
  intros Hn. unfold two_cycle. rewrite Nat.even_add, Hn.
  by destruct (Nat.even i).
Qed.

Lemma four_cycle_mod_shift (c1 c2 c3 : str) (n i : nat) :
  n mod 4 = 0 -> four_cycle c1 c2 c3 (n + i) = four_cycle c1 c2 c3 i.
Proof.
  intros Hn. unfold four_cycle.
  rewrite Nat.Div0.add_mod, Hn. cbn [Nat.add].
  by rewrite Nat.Div0.mod_mod.
Qed.

Lemma dye_sublist (colour : nat -> str) (text : str) :
  text `sublist_of` dye colour text.
Proof.
  revert colour. induction text as [|x text IH]; intros colour; [done|].
  rewrite dye_cons. unfold coloured. destruct (x =? space)%N.
  - cbn [app]. apply sublist_skip, IH.
  - rewrite <- app_assoc. apply sublist_inserts_l. cbn [app].
    apply sublist_skip, IH.
Qed.

Lemma length_dye_uniform (colour : nat -> str) (n : nat) (text : str) :
  (forall i, length (colour i) = n) ->
  length (dye colour text) = length text + n * length (inked text).
Proof.
  revert colour. induction text as [|x text IH]; intros colour Hc.
  - simpl. lia.
  - rewrite dye_cons, length_app, (IH (colour ∘ S)) by (intros i; apply Hc).
    unfold coloured, inked. cbn [List.filter].
    destruct (x =? space)%N; cbn [negb length]; rewrite ?length_app, ?Hc;
      cbn [length]; lia.
Qed.

Lemma is_word_not_space (db : N -> bool) (c : char) :
  is_word db c = true -> (c =? space)%N = false.
Proof.
  intros H. destruct (c =? space)%N eqn:E; [|done].
  apply N.eqb_eq in E as ->. done.
Qed.

Lemma cycle_from_dye (db : N -> bool) (nm : list str) (text : str) (k : nat) :
  Forall (fun c => is_word db c = true) text ->
  cycle_from db nm k text = dye (fun i => marker_at nm (k + i)) text.
Proof.
  intros H. revert k. induction H as [|c text Hc _ IH]; intros k; [done|].
  cbn [cycle_from]. rewrite Hc, dye_cons, Nat.add_0_r.
  unfold coloured. rewrite (is_word_not_space db c Hc), <- app_assoc.
  cbn [app]. do 2 f_equal. rewrite IH. apply dye_ext. intros i.
  unfold compose. f_equal. lia.
Qed.

Lemma marker_at_two (a b : str) (i : nat) :
  marker_at [a; b] i = two_cycle a b i.
Proof.
  unfold marker_at, two_cycle. cbn [length].
  pose proof (Nat.mod_upper_bound i 2 ltac:(lia)) as H.
  rewrite (Nat.div_mod_eq i 2) at 2.
  replace (2 * (i / 2) + i mod 2) with (i mod 2 + 2 * (i / 2)) by lia.
  rewrite Nat.even_add_mul_2.
  destruct (i mod 2) as [|[|n]]; try reflexivity. lia.
Qed.

Lemma marker_at_four (a b c : str) (i : nat) :
  marker_at [a; b; c; b] i = four_cycle a b c i.
Proof.
  unfold marker_at, four_cycle. cbn [length].
  pose proof (Nat.mod_upper_bound i 4 ltac:(lia)) as H.
  destruct (i mod 4) as [|[|[|[|n]]]]; try reflexivity. lia.
Qed.
End DyeingMore.

(** X5. With the first colour given again as third colour,
    [triplealternate] is [alternating]: the cycle [c1, c2, c1, c2] is the
    two-colour cycle. *)
Theorem triplealternate_two_colours (text c1 c2 : str) :
  Dyeing.triplealternate text c1 c2 c1 = Dyeing.alternating text c1 c2.
Proof.
  rewrite DyeingFacts.triplealternate_dye, DyeingFacts.alternating_dye.
  apply DyeingFacts.dye_ext. intros i. apply DyeingMore.four_cycle_two.
Qed.

(** X6. Neither dyeing function drops or reorders a character: the text is
    a subsequence of the result; and when the colour codes all have the same
    length [n], the result is longer than the text by [n] times the number of
    characters that are not spaces. *)
Theorem dyeing_keeps_characters (text c1 c2 c3 : str) (n : nat) :
  text `sublist_of` Dyeing.alternating text c1 c2
  /\ text `sublist_of` Dyeing.triplealternate text c1 c2 c3
  /\ (length c1 = n -> length c2 = n ->
      length (Dyeing.alternating text c1 c2)
      = length text + n * length (inked text))
  /\ (length c1 = n -> length c2 = n -> length c3 = n ->
      length (Dyeing.triplealternate text c1 c2 c3)
      = length text + n * length (inked text)).
Proof.
  rewrite DyeingFacts.triplealternate_dye, DyeingFacts.alternating_dye.
  split; [apply DyeingMore.dye_sublist|].
  split; [apply DyeingMore.dye_sublist|].
  split.
  - intros H1 H2. apply DyeingMore.length_dye_uniform. intros i.
    unfold Dyeing.two_cycle. by destruct (Nat.even i).
  - intros H1 H2 H3. apply DyeingMore.length_dye_uniform. intros i.
    unfold Dyeing.four_cycle. by destruct (i mod 4) as [|[|[|?]]].
Qed.

Lemma dyeing_keeps_characters_witness :
  length (Dyeing.alternating (py "a b!") (py "~L7") (py "~G2"))
  = 4 + 3 * length (inked (py "a b!"))
  /\ length (Dyeing.triplealternate (py "a b!") (py "~W9") (py "~W8") (py "~W7"))
     = 4 + 3 * length (inked (py "a b!")).
Proof.
  destruct (dyeing_keeps_characters (py "a b!") (py "~L7") (py "~G2") (py "~G2") 3)
    as (_ & _ & H2 & _).
  destruct (dyeing_keeps_characters (py "a b!") (py "~W9") (py "~W8") (py "~W7") 3)
    as (_ & _ & _ & H3).
  split; [apply H2 | apply H3]; reflexivity.
Defined.

(** X7. On a text made of word characters only, the prefix cycler with two
    markers gives what [alternating] gives with the two normalized markers,
    and with the four markers [c1, c2, c3, c2] what [triplealternate] gives
    with the three normalized markers. *)
Theorem cycler_agrees_with_dyeing (db : N -> bool) (text c1 c2 c3 : str) :
  Forall (fun c => is_word db c = true) text ->
  add_prefixes_to_letters db text [c1; c2]
  = Dyeing.alternating text (normalize_marker c1) (normalize_marker c2)
  /\ add_prefixes_to_letters db text [c1; c2; c3; c2]
     = Dyeing.triplealternate text (normalize_marker c1) (normalize_marker c2)
                              (normalize_marker c3).
Proof.
  intros H. rewrite !add_prefixes_cycle by done.
  rewrite !ensure_tilde_prefix_map. cbn [fmap list_fmap].
  rewrite DyeingFacts.triplealternate_dye, DyeingFacts.alternating_dye.
  rewrite !DyeingMore.cycle_from_dye by done.
  split; apply DyeingFacts.dye_ext; intros i; cbn [Nat.add].
  - apply DyeingMore.marker_at_two.
  - apply DyeingMore.marker_at_four.
Qed.

Lemma cycler_agrees_with_dyeing_witness :
  add_prefixes_to_letters latin1_only (py "Python123") [py "1"; py "~2"]
  = Dyeing.alternating (py "Python123") (py "~1") (py "~2").
Proof.
  apply (cycler_agrees_with_dyeing latin1_only (py "Python123")
           (py "1") (py "~2") (py "3")).
  repeat constructor.
Defined.

(** X8. The dyeing functions restart their cycle on a round boundary:
    [alternating] of a concatenation whose first part has even length, and
    [triplealternate] of one whose first part has a length divisible by 4,
    is the concatenation of the results of the parts. *)
Theorem dyeing_concatenation (t1 t2 c1 c2 c3 : str) :
  (Nat.even (length t1) = true ->
   Dyeing.alternating (t1 ++ t2) c1 c2
   = Dyeing.alternating t1 c1 c2 ++ Dyeing.alternating t2 c1 c2)
  /\ (length t1 mod 4 = 0 ->
      Dyeing.triplealternate (t1 ++ t2) c1 c2 c3
      = Dyeing.triplealternate t1 c1 c2 c3 ++ Dyeing.triplealternate t2 c1 c2 c3).
Proof.
  rewrite !DyeingFacts.triplealternate_dye, !DyeingFacts.alternating_dye.
  rewrite !DyeingMore.dye_app.
  split; intros H; f_equal; apply DyeingFacts.dye_ext; intros i.
  - by apply DyeingMore.two_cycle_even_shift.
  - by apply DyeingMore.four_cycle_mod_shift.
Qed.

Lemma dyeing_concatenation_witness :
  Dyeing.alternating (py "ab" ++ py " cd") (py "~L7") (py "~G2")
  = Dyeing.alternating (py "ab") (py "~L7") (py "~G2")
    ++ Dyeing.alternating (py " cd") (py "~L7") (py "~G2")
  /\ Dyeing.triplealternate (py "ab c" ++ py "de") (py "~1") (py "~2") (py "~3")
     = Dyeing.triplealternate (py "ab c") (py "~1") (py "~2") (py "~3")
       ++ Dyeing.triplealternate (py "de") (py "~1") (py "~2") (py "~3").
Proof.
  split.
  - apply (proj1 (dyeing_concatenation (py "ab") (py " cd")
                    (py "~L7") (py "~G2") (py "~G2"))).
    reflexivity.
  - apply (proj2 (dyeing_concatenation (py "ab c") (py "de")
                    (py "~1") (py "~2") (py "~3"))).
    reflexivity.
Defined.


(** ** The result box *)

Section BoxFacts.

Lemma split_on_cons_sep (sep : char) (s : str) :
  split_on sep (sep :: s) = [] :: split_on sep s.
Proof. cbn [split_on]. by rewrite N.eqb_refl. Qed.

Lemma split_on_not_nil (sep : char) (s : str) : split_on sep s <> [].
Proof.
  induction s as [|c s IH]; [done|]. cbn [split_on].
  destruct (c =? sep)%N; [done|]. by destruct (split_on sep s).
Qed.

Lemma split_on_no_sep (sep : char) (s : str) :
  Forall (fun w => sep ∉ w) (split_on sep s).
Proof.
  induction s as [|c s IH]; cbn [split_on].
  - constructor; [apply not_elem_of_nil|constructor].
  - destruct (c =? sep)%N eqn:E.
    + constructor; [apply not_elem_of_nil|done].
    + apply N.eqb_neq in E. pose proof (split_on_not_nil sep s).
      destruct (split_on sep s) as [|w ws]; [done|].
      apply Forall_cons in IH as [Hw Hws]. constructor; [|done].
      apply not_elem_of_cons. split; [congruence|done].
Qed.

Lemma split_on_word (sep : char) (w : str) :
  sep ∉ w -> split_on sep w = [w].
Proof.
  induction w as [|c w IH]; [done|].
  intros [Hc Hw]%not_elem_of_cons. cbn [split_on].
  destruct (c =? sep)%N eqn:E; [apply N.eqb_eq in E; congruence|].
  by rewrite (IH Hw).
Qed.

Lemma split_on_app (sep : char) (a b : str) :
  split_on sep (a ++ sep :: b) = split_on sep a ++ split_on sep b.
Proof.
  induction a as [|c a IH].
  - cbn [app]. by rewrite split_on_cons_sep.
  - cbn [app split_on]. destruct (c =? sep)%N; rewrite IH; [done|].
    pose proof (split_on_not_nil sep a).
    by destruct (split_on sep a).
Qed.

Lemma split_on_length (sep : char) (s : str) :
  Forall (fun w => length w <= length s) (split_on sep s).
Proof.
  induction s as [|c s IH]; cbn [split_on].
  - by repeat constructor.
  - destruct (c =? sep)%N.
    + constructor; [simpl; lia|].
      eapply Forall_impl; [exact IH|]. simpl. lia.
    + pose proof (split_on_not_nil sep s).
      destruct (split_on sep s) as [|w ws]; [done|].
      apply Forall_cons in IH as [Hw Hws]. constructor; [simpl; lia|].
      eapply Forall_impl; [exact Hws|]. simpl. lia.
Qed.

(** The lines of a state of the wrapping loop: those printed, then
    [current_line]. *)
Lemma nonempty_words_app (l1 l2 : list str) :
  nonempty_words (l1 ++ l2) = nonempty_words l1 ++ nonempty_words l2.
Proof.
  unfold nonempty_words. by rewrite fmap_app, concat_app, List.filter_app.
Qed.

Lemma nonempty_words_nil_line : nonempty_words [[]] = [].
Proof. reflexivity. Qed.

Lemma nonempty_words_word (w : str) :
  space ∉ w -> nonempty_words [w] = (if is_empty w then [] else [w]).
Proof.
  intros H. unfold nonempty_words. cbn [fmap list_fmap concat].
  rewrite split_on_word, app_nil_r by done. cbn [List.filter].
  by destruct (is_empty w).
Qed.

Lemma nonempty_words_joined (a w : str) :
  space ∉ w ->
  nonempty_words [a ++ [space] ++ w] = nonempty_words [a] ++ nonempty_words [w].
Proof.
  intros H. unfold nonempty_words. cbn [fmap list_fmap concat app].
  rewrite !app_nil_r, split_on_app, List.filter_app. done.
Qed.

Lemma wrap_step_words (printed : list str) (current_line word : str) :
  space ∉ word ->
  nonempty_words ((wrap_step (printed, current_line) word).1
                  ++ [(wrap_step (printed, current_line) word).2])
  = nonempty_words (printed ++ [current_line]) ++ nonempty_words [word].
Proof.
  intros Hw. unfold wrap_step.
  destruct (length (current_line ++ [space] ++ word) <=? max_width);
    destruct current_line as [|c current_line]; cbn [is_empty fst snd].
  - by rewrite !nonempty_words_app, nonempty_words_nil_line, app_nil_r.
  - by rewrite !nonempty_words_app, nonempty_words_joined, app_assoc.
  - by rewrite !nonempty_words_app, nonempty_words_nil_line, app_nil_r.
  - by rewrite !nonempty_words_app.
Qed.

Lemma wrap_loop_words (words : list str) (st : list str * str) :
  Forall (fun w => space ∉ w) words ->
  nonempty_words ((fold_left wrap_step words st).1
                  ++ [(fold_left wrap_step words st).2])
  = nonempty_words (st.1 ++ [st.2])
    ++ List.filter (fun w => negb (is_empty w)) words.
Proof.
  intros H. revert st. induction H as [|w words Hw _ IH]; intros st.
  - simpl. by rewrite app_nil_r.
  - cbn [fold_left]. rewrite IH. destruct st as [printed current_line].
    rewrite wrap_step_words by done. rewrite <- app_assoc. f_equal.
    rewrite nonempty_words_word by done. cbn [List.filter fst snd].
    by destruct (is_empty w).
Qed.

Lemma box_lines_words (result : str) :
  nonempty_words (box_lines result) = nonempty_words [result].
Proof.
  unfold box_lines. destruct (length result <=? max_width); [done|].
  pose proof (wrap_loop_words (split_on space result) ([], [])
                (split_on_no_sep space result)) as H.
  destruct (fold_left wrap_step (split_on space result) ([], []))
    as [printed current_line].
  cbn [fst snd app] in H. rewrite nonempty_words_nil_line in H. cbn [app] in H.
  assert (E : nonempty_words [result]
              = List.filter (fun w => negb (is_empty w)) (split_on space result)).
  { unfold nonempty_words. cbn [fmap list_fmap concat]. by rewrite app_nil_r. }
  rewrite E, <- H. destruct current_line as [|c current_line]; cbn [is_empty].
  - by rewrite nonempty_words_app, nonempty_words_nil_line, app_nil_r.
  - done.
Qed.

(** Widths. *)
Lemma length_box_row (line : str) :
  length (box_row line) = 4 + length line `max` max_width.
Proof.
  unfold box_row, ljust. rewrite !length_app, length_replicate. simpl. lia.
Qed.

(** Every line of the loop is short or is a word by itself. *)
Lemma wrap_step_short (words printed : list str) (current_line word : str) :
  word ∈ words ->
  Forall (fun l => length l <= max_width \/ l ∈ words) (printed ++ [current_line]) ->
  Forall (fun l => length l <= max_width \/ l ∈ words)
         ((wrap_step (printed, current_line) word).1
          ++ [(wrap_step (printed, current_line) word).2]).
Proof.
  intros Hw Hst. pose proof Hst as [Hp Hc]%Forall_app.
  assert (Hword : Forall (fun l => length l <= max_width \/ l ∈ words) [word]).
  { constructor; [by right|constructor]. }
  unfold wrap_step.
  destruct (length (current_line ++ [space] ++ word) <=? max_width) eqn:E;
    destruct current_line as [|c current_line]; cbn [is_empty fst snd];
    apply Forall_app; split; try done.
  apply Nat.leb_le in E. constructor; [by left|constructor].
Qed.

Lemma wrap_loop_short (words seen : list str) (st : list str * str) :
  seen ⊆ words ->
  Forall (fun l => length l <= max_width \/ l ∈ words) (st.1 ++ [st.2]) ->
  Forall (fun l => length l <= max_width \/ l ∈ words)
         ((fold_left wrap_step seen st).1 ++ [(fold_left wrap_step seen st).2]).
Proof.
  revert st. induction seen as [|w seen IH]; intros st Hs Hst; [done|].
  cbn [fold_left]. apply IH.
  - intros x Hx. apply Hs. by apply list_elem_of_further.
  - destruct st as [printed current_line]. apply wrap_step_short; [|done].
    apply Hs, list_elem_of_here.
Qed.

(** A word too long for the box ends up as a line by itself. *)
Lemma wrap_step_long (printed : list str) (current_line word w : str) :
  max_width < length w ->
  w ∈ printed ++ [current_line] \/ w = word ->
  w ∈ (wrap_step (printed, current_line) word).1
      ++ [(wrap_step (printed, current_line) word).2].
Proof.
  intros Hl Hw. unfold wrap_step.
  destruct (length (current_line ++ [space] ++ word) <=? max_width) eqn:E.
  - apply Nat.leb_le in E. rewrite !length_app in E. simpl in E.
    assert (Hin : w ∈ printed).
    { destruct Hw as [[?|Hc%list_elem_of_singleton]%elem_of_app| ->];
        [done|subst; lia|lia]. }
    destruct current_line; cbn [is_empty fst snd]; apply elem_of_app; by left.
  - destruct current_line as [|c current_line]; cbn [is_empty fst snd].
    + destruct Hw as [[?|Hc%list_elem_of_singleton]%elem_of_app| ->].
      * apply elem_of_app. by left.
      * subst. simpl in Hl. lia.
      * apply elem_of_app. right. apply list_elem_of_here.
    + destruct Hw as [Hw| ->].
      * apply elem_of_app. by left.
      * apply elem_of_app. right. apply list_elem_of_here.
Qed.

Lemma wrap_loop_long (seen : list str) (st : list str * str) (w : str) :
  max_width < length w ->
  w ∈ st.1 ++ [st.2] \/ w ∈ seen ->
  w ∈ (fold_left wrap_step seen st).1 ++ [(fold_left wrap_step seen st).2].
Proof.
  intros Hl. revert st. induction seen as [|x seen IH]; intros st Hw.
  - destruct Hw as [?|Hw]; [done|by apply elem_of_nil in Hw].
  - cbn [fold_left]. apply IH. destruct st as [printed current_line].
    destruct Hw as [Hw|[->|Hw]%elem_of_cons].
    + left. apply wrap_step_long; auto.
    + left. apply wrap_step_long; auto.
    + by right.
Qed.

Lemma box_lines_short_iff (result : str) :
  Forall (fun l => length l <= max_width) (box_lines result)
  <-> Forall (fun w => length w <= max_width) (split_on space result).
Proof.
  unfold box_lines. destruct (length result <=? max_width) eqn:E.
  - apply Nat.leb_le in E. split; intros _.
    + eapply Forall_impl; [apply split_on_length|]. simpl. lia.
    + constructor; [done|constructor].
  - set (words := split_on space result).
    pose proof (wrap_loop_short words words ([], []) ltac:(done)) as Hshort.
    pose proof (fun w Hl => wrap_loop_long words ([], []) w Hl) as Hlong.
    destruct (fold_left wrap_step words ([], [])) as [printed current_line].
    cbn [fst snd app] in *.
    assert (Hlines : forall P : str -> Prop, P [] ->
              (Forall P (if is_empty current_line then printed
                         else printed ++ [current_line])
               <-> Forall P (printed ++ [current_line]))).
    { intros P HP. destruct current_line; cbn [is_empty]; [|done].
      rewrite Forall_app. split; [|by intros [? _]].
      intros ?. split; [done|]. constructor; [done|constructor]. }
    rewrite (Hlines (fun l => length l <= max_width)) by (simpl; lia).
    split; intros H.
    + apply Forall_forall. intros w Hw.
      destruct (decide (length w <= max_width)) as [|Hn]; [done|].
      assert (Hin : w ∈ printed ++ [current_line]).
      { apply Hlong; [lia|]. by right. }
      by apply (proj1 (Forall_forall _ _) H) in Hin.
    + specialize (Hshort ltac:(constructor; [left; simpl; lia|constructor])).
      eapply Forall_impl; [exact Hshort|]. simpl.
      intros l [?|Hin]; [done|].
      by apply (proj1 (Forall_forall _ _) H) in Hin.
Qed.
End BoxFacts.

(** X9. The rows of the result box break the result at spaces only and lose
    no word: the non-empty words of the rows, read top to bottom, are the
    non-empty words of the result, in the same order. *)
Theorem box_lines_keep_words (result : str) :
  nonempty_words (box_lines result) = nonempty_words [result].
Proof. apply box_lines_words. Qed.

(** X10. The box is rectangular, every row being as wide as the borders (60
    characters), exactly when no word of the result, as separated by spaces,
    is longer than 56 characters; a longer word is printed on a row of its
    own, and that row is wider than the borders. *)
Theorem result_box_rectangular (result : str) :
  (Forall (fun row => length row = 60) (result_box result)
   <-> Forall (fun w => length w <= 56) (split_on space result))
  /\ (forall w : str,
        w ∈ split_on space result -> 56 < length w ->
        w ∈ box_lines result
        /\ box_row w ∈ result_box result
        /\ 60 < length (box_row w)).
Proof.
  split.
  - change 56 with max_width. rewrite <- box_lines_short_iff.
    unfold result_box. rewrite Forall_cons, Forall_app, Forall_fmap.
    split.
    + intros (_ & H & _). eapply Forall_impl; [exact H|].
      intros l Hl. unfold compose in Hl. rewrite length_box_row in Hl.
      unfold max_width in *. lia.
    + intros H. split; [reflexivity|].
      split; [|constructor; [reflexivity|constructor]].
      eapply Forall_impl; [exact H|].
      intros l Hl. unfold compose. rewrite length_box_row.
      unfold max_width in *. lia.
  - intros w Hw Hl.
    assert (Hin : w ∈ box_lines result).
    { unfold box_lines. destruct (length result <=? max_width) eqn:E.
      - apply Nat.leb_le in E.
        pose proof (proj1 (Forall_forall _ _) (split_on_length space result) w Hw).
        unfold max_width in *. simpl in *. lia.
      - pose proof (wrap_loop_long (split_on space result) ([], []) w Hl
                      (or_intror Hw)) as H.
        destruct (fold_left wrap_step (split_on space result) ([], []))
          as [printed current_line].
        cbn [fst snd] in H.
        destruct current_line as [|c current_line]; cbn [is_empty]; [|done].
        apply elem_of_app in H as [?|H%list_elem_of_singleton]; [done|].
        subst. simpl in Hl. lia. }
    split; [done|]. split.
    + unfold result_box. apply list_elem_of_further, elem_of_app. left.
      by apply list_elem_of_fmap_2.
    + rewrite length_box_row. unfold max_width. lia.
Qed.

Lemma result_box_rectangular_witness :
  box_row (replicate 57 97%N)
    ∈ result_box (replicate 57 97%N ++ py " b")
  /\ 60 < length (box_row (replicate 57 97%N)).
Proof.
  destruct (proj2 (result_box_rectangular (replicate 57 97%N ++ py " b"))
              (replicate 57 97%N)) as (_ & H1 & H2).
  - vm_compute. apply list_elem_of_here.
  - vm_compute. lia.
  - split; [exact H1 | exact H2].
Defined.

(** ** The statistics block *)

Section StatisticsFacts.
Variable db : N -> bool.

Lemma length_remove_dups_le (l : list str) :
  length (remove_dups l) <= length l.
Proof.
  apply submseteq_length, NoDup_submseteq; [apply NoDup_remove_dups|].
  intros x. by rewrite elem_of_remove_dups.
Qed.

Lemma length_remove_dups_subseteq (l k : list str) :
  (forall x, x ∈ l -> x ∈ k) ->
  length (remove_dups l) <= length (remove_dups k).
Proof.
  intros H. apply submseteq_length, NoDup_submseteq; [apply NoDup_remove_dups|].
  intros x. rewrite !elem_of_remove_dups. apply H.
Qed.

Lemma markers_consumed_take (text : str) (prefixes : list str) :
  guard text prefixes = false ->
  markers_consumed db text prefixes
  = take (total_letters db text) (extended_prefixes db text prefixes).
Proof.
  intros G. unfold markers_consumed, pieces. rewrite G. apply drawn_take.
Qed.

Lemma markers_consumed_normalized (text : str) (prefixes : list str) (x : str) :
  x ∈ markers_consumed db text prefixes -> x ∈ ensure_tilde_prefix prefixes.
Proof.
  destruct (guard text prefixes) eqn:G.
  - unfold markers_consumed. rewrite G. by intros ?%elem_of_nil.
  - rewrite markers_consumed_take by done.
    intros (i & Hi & _)%elem_of_take. unfold extended_prefixes in Hi.
    eapply list_mul_elem, list_elem_of_lookup_2, Hi.
Qed.

Lemma markers_consumed_all (text : str) (prefixes : list str) (x : str) :
  prefixes <> [] ->
  length prefixes <= total_letters db text ->
  x ∈ ensure_tilde_prefix prefixes -> x ∈ markers_consumed db text prefixes.
Proof.
  intros Hp Hn Hx.
  assert (G : guard text prefixes = false).
  { destruct text as [|c text]; [|by destruct prefixes].
    rewrite total_letters_nil in Hn. destruct prefixes; [done|simpl in Hn; lia]. }
  rewrite markers_consumed_take by done.
  apply list_elem_of_lookup in Hx as [i Hi].
  pose proof (lookup_lt_Some _ _ _ Hi) as Hlt.
  rewrite length_ensure_tilde_prefix in Hlt.
  apply elem_of_take. exists i. split; [|lia].
  unfold extended_prefixes, repetitions_needed.
  rewrite Nat.add_1_r. cbn [list_mul]. by apply lookup_app_l_Some.
Qed.
End StatisticsFacts.

(** X11. The statistics shown for a run: [Colour codes used] counts the
    distinct normalized codes given, which is at most the number of codes
    given and at least the number of distinct codes inserted in the result;
    the two agree as soon as the text has as many word characters as codes
    were given.  When the normalized codes all have length [n], [Result
    length] is the length of the text plus [n] times [Original letters]. *)
Theorem statistics_of_a_run (db : N -> bool) (text : str) (prefixes : list str) :
  let st := display_statistics db text
              (add_prefixes_to_letters db text prefixes) prefixes in
  codes_used st <= length prefixes
  /\ length (remove_dups (markers_consumed db text prefixes)) <= codes_used st
  /\ (prefixes <> [] -> length prefixes <= letter_count st ->
      length (remove_dups (markers_consumed db text prefixes)) = codes_used st)
  /\ (forall n, prefixes <> [] ->
                Forall (fun p => length (normalize_marker p) = n) prefixes ->
                result_length st = length text + n * letter_count st).
Proof.
  cbn [display_statistics codes_used letter_count result_length].
  fold (total_letters db text).
  split.
  { etrans; [apply length_remove_dups_le|].
    by rewrite length_ensure_tilde_prefix. }
  split.
  { apply length_remove_dups_subseteq, markers_consumed_normalized. }
  split.
  { intros Hp Hn. apply Nat.le_antisymm.
    - apply length_remove_dups_subseteq, markers_consumed_normalized.
    - apply length_remove_dups_subseteq. intros x.
      by apply markers_consumed_all. }
  intros n Hp Hlen. unfold add_prefixes_to_letters.
  destruct (guard text prefixes) eqn:G.
  - apply guard_true in G as [->|?]; [|done].
    rewrite total_letters_nil. simpl. lia.
  - unfold pieces. rewrite length_render, length_re_sub_w, drawn_take.
    f_equal.
    rewrite (sum_list_fmap_same n).
    + rewrite length_take.
      rewrite Nat.min_l by apply (supply_covers db text prefixes Hp). lia.
    + apply Forall_take. unfold extended_prefixes.
      apply list_mul_Forall. rewrite ensure_tilde_prefix_map.
      by apply Forall_fmap.
Qed.

Lemma statistics_of_a_run_witness :
  length (remove_dups (markers_consumed latin1_only (py "Hi!") [py "A"; py "~A"]))
  = codes_used (display_statistics latin1_only (py "Hi!")
                  (add_prefixes_to_letters latin1_only (py "Hi!") [py "A"; py "~A"])
                  [py "A"; py "~A"])
  /\ result_length (display_statistics latin1_only (py "Hi!")
                      (add_prefixes_to_letters latin1_only (py "Hi!") [py "A"; py "~A"])
                      [py "A"; py "~A"])
     = 3 + 2 * 2.
Proof.
  destruct (statistics_of_a_run latin1_only (py "Hi!") [py "A"; py "~A"])
    as (_ & _ & He & Hl).
  split.
  - apply He; [discriminate|]. vm_compute. lia.
  - apply (Hl 2); [discriminate|]. repeat constructor.
Defined.

(** ** Stripping white space *)

Section StripSpaceFacts.

Lemma lstrip_nil_iff (s : str) :
  lstrip s = [] <-> Forall (fun c => py_isspace c = true) s.
Proof.
  induction s as [|c s IH]; [by split|].
  cbn [lstrip]. destruct (py_isspace c) eqn:E.
  - rewrite IH. split; [by constructor|by intros [_ ?]%Forall_cons].
  - split; [done|]. intros [? _]%Forall_cons. congruence.
Qed.

Lemma lstrip_head (s : str) (c : char) :
  head (lstrip s) = Some c -> py_isspace c = false.
Proof.
  induction s as [|x s IH]; [done|].
  cbn [lstrip]. destruct (py_isspace x) eqn:E; [done|].
  by intros [= <-].
Qed.

Lemma lstrip_fixed (s : str) :
  (forall c, head s = Some c -> py_isspace c = false) -> lstrip s = s.
Proof.
  destruct s as [|c s]; [done|]. intros H. cbn [lstrip].
  by rewrite (H c eq_refl).
Qed.

Lemma lstrip_split (s : str) :
  exists ws, s = ws ++ lstrip s /\ Forall (fun c => py_isspace c = true) ws.
Proof.
  induction s as [|c s (ws & E & Hws)]; [by exists []|].
  cbn [lstrip]. destruct (py_isspace c) eqn:Ec.
  - exists (c :: ws). split; [by rewrite E at 1|by constructor].
  - by exists [].
Qed.

Lemma lstrip_snoc (l : str) (c : char) :
  lstrip (l ++ [c])
  = if is_empty (lstrip l)
    then (if py_isspace c then [] else [c])
    else lstrip l ++ [c].
Proof.
  induction l as [|x l IH]; [done|].
  cbn [app lstrip]. destruct (py_isspace x); done.
Qed.

Lemma rstrip_cons (c : char) (s : str) :
  rstrip (c :: s)
  = if is_empty (rstrip s)
    then (if py_isspace c then [] else [c])
    else c :: rstrip s.
Proof.
  unfold rstrip. rewrite reverse_cons, lstrip_snoc.
  destruct (lstrip (reverse s)) as [|x l] eqn:E; cbn [is_empty].
  - rewrite reverse_nil. cbn [is_empty]. by destruct (py_isspace c).
  - rewrite reverse_app, reverse_singleton. cbn [app].
    destruct (reverse (x :: l)) eqn:E'; [|done].
    apply (f_equal reverse) in E'. by rewrite reverse_involutive in E'.
Qed.

Lemma rstrip_nil_iff (s : str) :
  rstrip s = [] <-> Forall (fun c => py_isspace c = true) s.
Proof.
  induction s as [|c s IH]; [by split|].
  rewrite rstrip_cons. destruct (rstrip s) as [|x r]; cbn [is_empty].
  - destruct (py_isspace c) eqn:E.
    + split; [intros _; constructor; [done|by apply IH]|done].
    + split; [done|]. intros [? _]%Forall_cons. congruence.
  - split; [done|]. intros [_ H]%Forall_cons. by apply IH in H.
Qed.

Lemma rstrip_fixed (s : str) :
  (forall c, last s = Some c -> py_isspace c = false) -> rstrip s = s.
Proof.
  intros H. unfold rstrip. rewrite lstrip_fixed; [apply reverse_involutive|].
  intros c. rewrite head_reverse. apply H.
Qed.

Lemma rstrip_last (s : str) (c : char) :
  last (rstrip s) = Some c -> py_isspace c = false.
Proof.
  unfold rstrip. rewrite last_reverse. apply lstrip_head.
Qed.

Lemma rstrip_split (s : str) :
  exists ws, s = rstrip s ++ ws /\ Forall (fun c => py_isspace c = true) ws.
Proof.
  destruct (lstrip_split (reverse s)) as (ws & E & Hws).
  exists (reverse ws). split; [|by apply Forall_reverse].
  unfold rstrip. rewrite <- reverse_app, <- E. by rewrite reverse_involutive.
Qed.

Lemma rstrip_head (s : str) (c : char) :
  head s = Some c -> py_isspace c = false -> head (rstrip s) = Some c.
Proof.
  destruct s as [|x s]; [done|]. intros [= ->] Hc.
  rewrite rstrip_cons, Hc. by destruct (rstrip s).
Qed.

Lemma strip_split (s : str) :
  exists a b, s = a ++ strip s ++ b
              /\ Forall (fun c => py_isspace c = true) a
              /\ Forall (fun c => py_isspace c = true) b.
Proof.
  destruct (lstrip_split s) as (a & Ea & Ha).
  destruct (rstrip_split (lstrip s)) as (b & Eb & Hb).
  exists a, b. unfold strip. by rewrite <- Eb.
Qed.

Lemma strip_nil_iff (s : str) :
  strip s = [] <-> Forall (fun c => py_isspace c = true) s.
Proof.
  unfold strip. split.
  - intros H%rstrip_nil_iff. apply lstrip_nil_iff.
    destruct (lstrip s) as [|c l] eqn:E; [done|].
    apply Forall_cons in H as [Hc _].
    assert (py_isspace c = false) by (apply (lstrip_head s); by rewrite E).
    congruence.
  - intros H%lstrip_nil_iff. by rewrite H.
Qed.

Lemma strip_head (s : str) (c : char) :
  head (strip s) = Some c -> py_isspace c = false.
Proof.
  unfold strip. destruct (lstrip s) as [|x l] eqn:E; [done|].
  assert (Hx : py_isspace x = false) by (apply (lstrip_head s); by rewrite E).
  by rewrite (rstrip_head (x :: l) x eq_refl Hx); intros [= <-].
Qed.

Lemma strip_last (s : str) (c : char) :
  last (strip s) = Some c -> py_isspace c = false.
Proof. apply rstrip_last. Qed.

Lemma strip_fixed (s : str) :
  (forall c, head s = Some c -> py_isspace c = false) ->
  (forall c, last s = Some c -> py_isspace c = false) ->
  strip s = s.
Proof.
  intros Hh Hl. unfold strip. rewrite lstrip_fixed by done.
  by apply rstrip_fixed.
Qed.

Lemma strip_idem (s : str) : strip (strip s) = strip s.
Proof. apply strip_fixed; [apply strip_head|apply strip_last]. Qed.

Lemma strip_elem (s : str) (c : char) : c ∈ strip s -> c ∈ s.
Proof.
  destruct (strip_split s) as (a & b & E & _). intros H.
  rewrite E. apply elem_of_app. right. apply elem_of_app. by left.
Qed.

Lemma is_empty_true (s : str) : is_empty s = true <-> s = [].
Proof. by destruct s. Qed.

Lemma is_empty_false (s : str) : is_empty s = false <-> s <> [].
Proof. by destruct s. Qed.
End StripSpaceFacts.

(** ** Parsing the colour codes *)

Section ParseFacts.

Lemma clean_code_strip (tok : str) :
  comma ∉ tok -> strip tok <> [] -> clean_code (strip tok).
Proof.
  intros Hc Hn. split; [done|]. split; [|apply strip_idem].
  intros H. by apply strip_elem in H.
Qed.

Lemma parse_tokens_clean (toks : list str) :
  Forall (fun w => comma ∉ w) toks ->
  Forall clean_code
         (strip <$> List.filter (fun p => negb (is_empty (strip p))) toks).
Proof.
  induction 1 as [|tok toks Htok _ IH]; [constructor|].
  cbn [List.filter]. destruct (is_empty (strip tok)) eqn:E; cbn [negb]; [done|].
  rewrite fmap_cons. constructor; [|done].
  apply clean_code_strip; [done|]. by apply is_empty_false.
Qed.

Lemma parse_prefixes_clean (prefix_input : str) :
  Forall clean_code (parse_prefixes prefix_input).
Proof. apply parse_tokens_clean, split_on_no_sep. Qed.

Lemma clean_code_head (p : str) (c : char) :
  clean_code p -> head p = Some c -> py_isspace c = false.
Proof. intros (_ & _ & E). rewrite <- E. apply strip_head. Qed.

Lemma clean_code_last (p : str) (c : char) :
  clean_code p -> last p = Some c -> py_isspace c = false.
Proof. intros (_ & _ & E). rewrite <- E. apply strip_last. Qed.

Lemma join_commas_cons (p q : str) (ps : list str) :
  join_commas (p :: q :: ps) = p ++ comma :: join_commas (q :: ps).
Proof. reflexivity. Qed.

Lemma join_commas_not_nil (ps : list str) :
  ps <> [] -> Forall clean_code ps -> join_commas ps <> [].
Proof.
  destruct ps as [|p [|q ps]]; [done| |].
  - intros _ [(Hp & _) _]%Forall_cons. done.
  - intros _ _. rewrite join_commas_cons. by destruct p.
Qed.

Lemma split_join_commas (ps : list str) :
  ps <> [] -> Forall (fun w => comma ∉ w) ps ->
  split_on comma (join_commas ps) = ps.
Proof.
  induction ps as [|p ps IH]; [done|]. intros _ [Hp Hps]%Forall_cons.
  destruct ps as [|q ps].
  - by apply split_on_word.
  - rewrite join_commas_cons, split_on_app, split_on_word by done.
    cbn [app]. f_equal. by apply IH.
Qed.

Lemma join_commas_head (ps : list str) (c : char) :
  Forall clean_code ps -> head (join_commas ps) = Some c ->
  py_isspace c = false.
Proof.
  destruct ps as [|p [|q ps]]; [done| |]; intros [Hp _]%Forall_cons.
  - by apply clean_code_head.
  - rewrite join_commas_cons. destruct p as [|x p]; [by destruct Hp|].
    intros [= <-]. by apply (clean_code_head (x :: p)).
Qed.

Lemma join_commas_last (ps : list str) (c : char) :
  Forall clean_code ps -> last (join_commas ps) = Some c ->
  py_isspace c = false.
Proof.
  induction ps as [|p ps IH]; [done|]. intros [Hp Hps]%Forall_cons.
  destruct ps as [|q ps].
  - by apply clean_code_last.
  - rewrite join_commas_cons, last_app_cons.
    pose proof (join_commas_not_nil (q :: ps) ltac:(done) Hps) as Hn.
    destruct (join_commas (q :: ps)) as [|x l] eqn:E; [done|].
    cbn [last]. by apply IH.
Qed.

Lemma parse_join_commas (ps : list str) :
  ps <> [] -> Forall clean_code ps ->
  parse_prefixes (join_commas ps) = ps.
Proof.
  intros Hn Hc. unfold parse_prefixes. rewrite split_join_commas; [|done|].
  - clear Hn. induction Hc as [|p ps (Hp & _ & E) _ IH]; [done|].
    cbn [List.filter]. rewrite E.
    destruct p; [done|]. cbn [is_empty negb]. rewrite fmap_cons, E.
    by rewrite IH.
  - eapply Forall_impl; [exact Hc|]. by intros p (_ & ? & _).
Qed.

Lemma split_on_chars (P : char -> Prop) (sep : char) (s : str) :
  Forall (Forall P) (split_on sep s) <-> Forall (fun c => c = sep \/ P c) s.
Proof.
  induction s as [|c s IH]; cbn [split_on].
  - split; intros _; repeat constructor.
  - destruct (c =? sep)%N eqn:E.
    + apply N.eqb_eq in E as ->. rewrite !Forall_cons, IH.
      split; [intros [_ ?]; split; [by left|done]|intros [_ ?]; by split].
    + apply N.eqb_neq in E. pose proof (split_on_not_nil sep s).
      destruct (split_on sep s) as [|w ws]; [done|].
      rewrite !Forall_cons in *. rewrite <- IH.
      split.
      * intros ((Hc & Hw) & Hws). split; [by right|done].
      * intros ([?|Hc] & (Hw & Hws)); done.
Qed.

Lemma parse_prefixes_nil_iff (prefix_input : str) :
  parse_prefixes prefix_input = []
  <-> Forall (fun c => c = comma \/ py_isspace c = true) prefix_input.
Proof.
  rewrite <- split_on_chars. unfold parse_prefixes.
  induction (split_on comma prefix_input) as [|tok toks IH].
  - split; [constructor|done].
  - cbn [List.filter]. rewrite Forall_cons, <- IH, <- strip_nil_iff.
    destruct (strip tok) as [|x l] eqn:E; cbn [is_empty negb].
    + split; [by intros ->|by intros [_ ->]].
    + rewrite fmap_cons. split; [done|by intros [? _]].
Qed.

Lemma space_or_comma_strip (s : str) :
  Forall (fun c => c = comma \/ py_isspace c = true) (strip s)
  <-> Forall (fun c => c = comma \/ py_isspace c = true) s.
Proof.
  destruct (strip_split s) as (a & b & E & Ha & Hb).
  rewrite E at 2. rewrite !Forall_app.
  split; [|by intros (_ & ? & _)].
  intros H. split; [|split; [done|]];
    (eapply Forall_impl; [eassumption|]); by right.
Qed.
End ParseFacts.

(** X12. What [get_user_input] accepts can go to the transformer as it is:
    the text is not empty and has no white space at either end, the list of
    colour codes is not empty, and each code is not empty, has no comma and
    no white space at either end; so the call does not return at the
    guard. *)
Theorem get_user_input_accepted (stdin rest : list str) (text : str) (prefixes : list str) :
  get_user_input stdin = Some (Accepted text prefixes, rest) ->
  text <> [] /\ strip text = text
  /\ prefixes <> [] /\ Forall clean_code prefixes
  /\ guard text prefixes = false.
Proof.
  unfold get_user_input. destruct stdin as [|line [|line2 stdin2]]; [done| |].
  - by destruct (is_empty (strip line)).
  - destruct (is_empty (strip line)) eqn:E1; [done|].
    destruct (is_empty (strip line2)) eqn:E2; [done|].
    destruct (parse_prefixes (strip line2)) as [|p ps] eqn:E3; [done|].
    intros [= <- <- <-]. apply is_empty_false in E1.
    split; [done|]. split; [apply strip_idem|]. split; [done|].
    split; [rewrite <- E3; apply parse_prefixes_clean|].
    by destruct (strip line).
Qed.

Lemma get_user_input_accepted_witness :
  strip (py "Hello World!") = py "Hello World!"
  /\ guard (py "Hello World!") [py "W1"; py "W2"] = false.
Proof.
  destruct (get_user_input_accepted
              [py "  Hello World! "; py "W1, W2"; py "4"] [py "4"]
              (py "Hello World!") [py "W1"; py "W2"] eq_refl)
    as (_ & H1 & _ & _ & H2).
  split; [exact H1 | exact H2].
Defined.

(** X13. Round trip: a text without white space at its ends and colour
    codes that are not empty, without commas and without white space at their
    ends, typed as one line of text and one line of codes joined by commas,
    are returned exactly, and no further line is read. *)
Theorem get_user_input_round_trip (text : str) (prefixes : list str) (rest : list str) :
  text <> [] -> strip text = text ->
  prefixes <> [] -> Forall clean_code prefixes ->
  get_user_input (text :: join_commas prefixes :: rest)
  = Some (Accepted text prefixes, rest).
Proof.
  intros Ht Et Hp Hc. unfold get_user_input. rewrite Et.
  destruct text as [|c text]; [done|]. cbn [is_empty].
  rewrite (strip_fixed (join_commas prefixes));
    [|intros x; by apply join_commas_head|intros x; by apply join_commas_last].
  pose proof (join_commas_not_nil prefixes Hp Hc) as Hj.
  destruct (join_commas prefixes) as [|x l] eqn:E; [done|]. cbn [is_empty].
  rewrite <- E, parse_join_commas by done.
  by destruct prefixes.
Qed.

Lemma get_user_input_round_trip_witness :
  get_user_input (py "Hello World!" :: join_commas [py "W1"; py "~W2"] :: [py "4"])
  = Some (Accepted (py "Hello World!") [py "W1"; py "~W2"], [py "4"]).
Proof.
  assert (Hclean : forall p : str,
             p <> [] -> existsb (N.eqb comma) p = false -> strip p = p ->
             clean_code p).
  { intros p Hn Hc Hs. split; [done|]. split; [|done].
    intros Hin%list_elem_of_In.
    assert (Hex : existsb (N.eqb comma) p = true).
    { apply existsb_exists. exists comma. split; [done|apply N.eqb_refl]. }
    congruence. }
  apply get_user_input_round_trip; [discriminate|reflexivity|discriminate|].
  constructor; [apply Hclean; [discriminate|reflexivity|reflexivity]|].
  constructor; [apply Hclean; [discriminate|reflexivity|reflexivity]|].
  constructor.
Defined.

(** X14. Validation: a first line made of white space only is rejected
    without the line of codes being read; otherwise the input is accepted
    exactly when the line of codes has a character that is neither white
    space nor a comma. *)
Theorem get_user_input_validation (line1 line2 : str) (rest : list str) :
  (Forall (fun c => py_isspace c = true) line1 ->
   get_user_input (line1 :: line2 :: rest)
   = Some (Rejected NoText, line2 :: rest))
  /\ (~ Forall (fun c => py_isspace c = true) line1 ->
      (exists text prefixes,
          get_user_input (line1 :: line2 :: rest)
          = Some (Accepted text prefixes, rest))
      <-> ~ Forall (fun c => c = comma \/ py_isspace c = true) line2).
Proof.
  unfold get_user_input. split.
  - intros H%strip_nil_iff. by rewrite H.
  - intros H1. rewrite <- strip_nil_iff in H1. apply is_empty_false in H1.
    rewrite H1, <- space_or_comma_strip, <- parse_prefixes_nil_iff.
    destruct (is_empty (strip line2)) eqn:E2.
    + apply is_empty_true in E2. rewrite E2. split; [by intros (? & ? & ?)|].
      intros H. by destruct H.
    + destruct (parse_prefixes (strip line2)) as [|p ps] eqn:E3.
      * split; [by intros (? & ? & ?)|]. intros H. by destruct H.
      * split; [done|]. intros _. by eexists _, _.
Qed.

Lemma get_user_input_validation_witness :
  get_user_input [py "  "; py "W1"] = Some (Rejected NoText, [py "W1"])
  /\ exists text prefixes,
      get_user_input [py "Hi"; py " ,W1"] = Some (Accepted text prefixes, []).
Proof.
  split.
  - apply (proj1 (get_user_input_validation (py "  ") (py "W1") [])).
    repeat constructor.
  - apply (proj2 (get_user_input_validation (py "Hi") (py " ,W1") [])).
    + intros H.
      pose proof (proj1 (Forall_lookup _ _) H 0 _ eq_refl) as H0.
      vm_compute in H0. discriminate.
    + intros H.
      pose proof (proj1 (Forall_lookup _ _) H 2 _ eq_refl) as [H2|H2];
        vm_compute in H2; discriminate.
Defined.
